(** * EDH Rankle: the selection, ranking and evaluation logic

    A shallow embedding of the game logic of [src/App.jsx] (pairwise mode)
    and [src/Daily.jsx] (daily mode), with the properties the specification
    states about it.

    Conventions.
    - A JavaScript string is a Rocq [string]; the functions of the host that
      depend on the Unicode tables ([normalize], [toLowerCase], the
      [\p{Diacritic}] class) are parameters of the sections that use them.
    - A JavaScript number is a [Js.number]: an integer, one of the two
      infinities, or NaN.  Ranks are ordinals, so the finite numbers are
      integers; every arithmetic result that occurs stays far below 2^53.
    - [Math.random], the clock and the network are inputs: a function that
      reads them takes what it read as an argument. *)

From Stdlib Require Import ZArith Lia Bool Ascii String DecimalString DecimalZ DecimalPos.
From stdpp Require Import base tactics option list strings sorting gmap.

Local Open Scope nat_scope.

(** ** JavaScript values shared by both modes *)

Module Js.

(** The numbers the game computes with. *)
Inductive number : Type :=
| NaN
| NegInf
| Fin (z : Z)
| PosInf.

#[global] Instance number_eq_dec : EqDecision number.
Proof. solve_decision. Defined.

(** [a === b] on two numbers: NaN is equal to nothing. *)
Definition strictEq (a b : number) : bool :=
  match a, b with
  | NegInf, NegInf | PosInf, PosInf => true
  | Fin x, Fin y => (x =? y)%Z
  | _, _ => false
  end.

(** [a < b]: false as soon as one side is NaN. *)
Definition lt (a b : number) : bool :=
  match a, b with
  | NaN, _ | _, NaN => false
  | NegInf, NegInf => false
  | NegInf, _ => true
  | Fin _, NegInf => false
  | Fin x, Fin y => (x <? y)%Z
  | Fin _, PosInf => true
  | PosInf, _ => false
  end.

(** [a > b] and [a <= b]. *)
Definition gt (a b : number) : bool := lt b a.
Definition le (a b : number) : bool := lt a b || strictEq a b.

(** [a - b]. *)
Definition sub (a b : number) : number :=
  match a, b with
  | NaN, _ | _, NaN => NaN
  | Fin x, Fin y => Fin (x - y)
  | PosInf, PosInf | NegInf, NegInf => NaN
  | PosInf, _ | _, NegInf => PosInf
  | NegInf, _ | _, PosInf => NegInf
  end.

(** [a + b]. *)
Definition add (a b : number) : number :=
  match a, b with
  | NaN, _ | _, NaN => NaN
  | Fin x, Fin y => Fin (x + y)
  | PosInf, NegInf | NegInf, PosInf => NaN
  | PosInf, _ | _, PosInf => PosInf
  | NegInf, _ | _, NegInf => NegInf
  end.

(** [n.toString()] for an integer. *)
Definition toString (z : Z) : string :=
  NilZero.string_of_int (Z.to_int z).

(** [s.padStart(targetLength, c)] for a one-character filler [c]. *)
Definition padStart (targetLength : nat) (c : ascii) (s : string) : string :=
  String.append
    (string_of_list_ascii (replicate (targetLength - String.length s) c)) s.

Definition digitValue (c : ascii) : option Z :=
  let n := Z.of_nat (nat_of_ascii c) in
  if (48 <=? n)%Z && (n <=? 57)%Z then Some (n - 48)%Z else None.

(** The value of a run of decimal digits, read from the left. *)
Fixpoint parseDigits (acc : Z) (s : string) : option Z :=
  match s with
  | EmptyString => Some acc
  | String c s =>
      match digitValue c with
      | Some d => parseDigits (acc * 10 + d) s
      | None => None
      end
  end.

(** [Number(s)] on the strings of digits with an optional minus sign; the
    empty string is 0 and a string of another form is taken to NaN (the
    game only converts strings of this form this way). *)
Definition integerOfString (s : string) : number :=
  match s with
  | EmptyString => Fin 0
  | String c s' =>
      if Ascii.eqb c "-" then
        match s' with
        | EmptyString => NaN
        | _ => match parseDigits 0 s' with
               | Some v => Fin (- v)
               | None => NaN
               end
        end
      else
        match parseDigits 0 s with
        | Some v => Fin v
        | None => NaN
        end
  end.

(** [l.join(sep)] *)
Fixpoint join (sep : string) (l : list string) : string :=
  match l with
  | [] => EmptyString
  | [x] => x
  | x :: l => String.append x (String.append sep (join sep l))
  end.

(** A value that is either a number or not ([null], [undefined]):
    [typeof v === 'number'] is [is_Some v]. *)
Definition maybe_number : Type := option number.

(** The outcome of an operation that can raise. *)
Inductive completion (A : Type) : Type :=
| Normal (a : A)
| Throw.
Arguments Normal {A} a.
Arguments Throw {A}.

(** Sequencing: an exception ends what follows. *)
#[global] Instance completion_ret : MRet completion := @Normal.
#[global] Instance completion_bind : MBind completion :=
  λ A B f c, match c with
             | Normal a => f a
             | Throw => Throw
             end.

End Js.

(** ** The data set ([commanders.json]) and a round's state *)

(** A card record, with the fields the game logic reads.  [keywords] is
    [None] when the field is not an array, [released_at] and [legalities]
    are [None] when the field is missing; [legalities] maps a format name to
    its legality string.  [rank] is the field the daily mode adds. *)
Record Card : Type := mkCard {
  name : string;
  card_id : string;
  keywords : option (list string);
  released_at : option string;
  legalities : option (gmap string string);
  rank : Js.maybe_number;
}.

(** What [leftMeta] and [rightMeta] hold once set: [{ error: msg }], or the
    candidate with its rank, [{ ...left, rank: leftRank }]. *)
Inductive Meta : Type :=
| MetaError (error : string)
| MetaCard (candidate : Card) (rank : Js.maybe_number).

(** [meta.rank] *)
Definition metaRank (m : Meta) : Js.maybe_number :=
  match m with
  | MetaError _ => None
  | MetaCard _ r => r
  end.

(** ** Slugs ([slugify], [src/App.jsx]) *)

Module Slug.

(** [[a-z0-9]] *)
Definition isAlnum (c : ascii) : bool :=
  let n := nat_of_ascii c in
  ((97 <=? n) && (n <=? 122)) || ((48 <=? n) && (n <=? 57)).

Definition hyphen : ascii := "-".

Definition isHyphen (c : ascii) : bool := Ascii.eqb c hyphen.

(** The class of the second [replace]: the double quote (code 34), the
    quote, [!], [?], the two parentheses, [:], [,] and [.]. *)
Definition isPunct (c : ascii) : bool :=
  bool_decide (c ∈ ["034"; "'"; "!"; "?"; "("; ")"; ":"; ","; "."]%char).

(** The second [replace]: the characters of that class are deleted. *)
Definition removePunct (l : list ascii) : list ascii :=
  List.filter (λ c, negb (isPunct c)) l.

(** The third [replace], of [/[^a-z0-9]+/g] by a hyphen: each maximal run of characters
    outside [a-z0-9] becomes one hyphen.  [inRun] says that the previous
    character belonged to such a run. *)
Fixpoint collapseFrom (inRun : bool) (l : list ascii) : list ascii :=
  match l with
  | [] => []
  | c :: l =>
      if isAlnum c then c :: collapseFrom false l
      else if inRun then collapseFrom true l
      else hyphen :: collapseFrom true l
  end.

Definition collapse (l : list ascii) : list ascii := collapseFrom false l.

Fixpoint dropHyphens (l : list ascii) : list ascii :=
  match l with
  | [] => []
  | c :: l' => if isHyphen c then dropHyphens l' else l
  end.

(** The last [replace], of [/^-+|-+$/g] by nothing: the leading and the
    trailing run of hyphens go.  [dropTrailingHyphens l] is [l] without its
    longest suffix of hyphens. *)
Fixpoint dropTrailingHyphens (l : list ascii) : list ascii :=
  match l with
  | [] => []
  | c :: l' =>
      match dropTrailingHyphens l' with
      | [] => if isHyphen c then [] else [c]
      | kept => c :: kept
      end
  end.

Definition trimHyphens (l : list ascii) : list ascii :=
  dropTrailingHyphens (dropHyphens l).

Section slugify.
(** The three steps that depend on the Unicode tables:
    [.normalize('NFD')], [.replace(/\p{Diacritic}/gu, '')] and
    [.toLowerCase()]. *)
Variable normalizeNFD : string → string.
Variable stripDiacritics : string → string.
Variable toLowerCase : string → string.

(** [slugify(name)] *)
Definition slugify (name : string) : string :=
  string_of_list_ascii
    (trimHyphens
       (collapse
          (removePunct
             (list_ascii_of_string
                (toLowerCase (stripDiacritics (normalizeNFD name))))))).
End slugify.

(** [toLowerCase] on a string of ASCII characters. *)
Definition lowerAscii (c : ascii) : ascii :=
  let n := nat_of_ascii c in
  if (65 <=? n) && (n <=? 90) then ascii_of_nat (n + 32) else c.

Definition asciiLowerCase (s : string) : string :=
  string_of_list_ascii (lowerAscii <$> list_ascii_of_string s).

(** *** The pattern of the specification *)

Inductive Regex : Type :=
| Class (p : ascii → bool)
| Seq (r1 r2 : Regex)
| Plus (r : Regex)
| Star (r : Regex).

Inductive Matches : Regex → list ascii → Prop :=
| MClass p c : p c = true → Matches (Class p) [c]
| MSeq r1 r2 l1 l2 : Matches r1 l1 → Matches r2 l2 → Matches (Seq r1 r2) (l1 ++ l2)
| MPlusOne r l : Matches r l → Matches (Plus r) l
| MPlusMore r l1 l2 : Matches r l1 → Matches (Plus r) l2 → Matches (Plus r) (l1 ++ l2)
| MStarNil r : Matches (Star r) []
| MStarMore r l1 l2 : Matches r l1 → Matches (Star r) l2 → Matches (Star r) (l1 ++ l2).

(** [^[a-z0-9]+(-[a-z0-9]+)*$] *)
Definition slugPattern : Regex :=
  Seq (Plus (Class isAlnum))
      (Star (Seq (Class isHyphen) (Plus (Class isAlnum)))).

(** A string is over the slug alphabet when each of its characters is in
    [a-z0-9] or is a hyphen. *)
Definition slugChars (s : string) : Prop :=
  Forall (λ c, isAlnum c = true ∨ c = hyphen) (list_ascii_of_string s).

(** The lists the pattern describes, built from the left: a character of
    [a-z0-9], followed by nothing, by such a list, or by a hyphen and such a
    list. *)
Inductive SlugShape : list ascii → Prop :=
| shape_last c : isAlnum c = true → SlugShape [c]
| shape_more c l : isAlnum c = true → SlugShape l → SlugShape (c :: l)
| shape_hyphen c l : isAlnum c = true → SlugShape l → SlugShape (c :: hyphen :: l).

(** No two hyphens in a row, and nothing outside the slug alphabet;
    [afterHyphen] says that the character before the list is a hyphen. *)
Fixpoint singleHyphens (afterHyphen : bool) (l : list ascii) : Prop :=
  match l with
  | [] => True
  | c :: l =>
      (isAlnum c = true ∧ singleHyphens false l)
      ∨ (c = hyphen ∧ afterHyphen = false ∧ singleHyphens true l)
  end.

End Slug.

(** ** The commander filter ([getFilteredCommanders], [src/App.jsx]) *)

Module Filter.

(** The three toggles. *)
Record Config : Type := mkConfig {
  includePartner : bool;
  includeUnreleased : bool;
  includeIllegal : bool;
}.

Section filter.
(** The time value of [new Date(s)]; [None] for an invalid date. *)
Variable parseDate : string → option Z.

(** [Array.isArray(card.keywords) && card.keywords.includes('Partner')] *)
Definition hasPartner (card : Card) : bool :=
  match keywords card with
  | Some ks => bool_decide ("Partner" ∈ ks)
  | None => false
  end.

(** The release date of a card: the time value of its [released_at], when
    the field is present, not empty and a valid date. *)
Definition releaseDate (card : Card) : option Z :=
  match released_at card with
  | Some s => if String.eqb s EmptyString then None else parseDate s
  | None => None
  end.

(** [card.released_at && new Date(card.released_at) > now]: a missing or
    empty field is falsy, an invalid date compares false. *)
Definition releasedAfter (now : Z) (card : Card) : bool :=
  match releaseDate card with
  | Some t => (now <? t)%Z
  | None => false
  end.

(** [card.legalities && card.legalities.commander !== 'legal'] *)
Definition notLegal (card : Card) : bool :=
  match legalities card with
  | Some m => bool_decide (m !! "commander" ≠ Some "legal")
  | None => false
  end.

(** The callback of [commanders.filter]. *)
Definition keep (cfg : Config) (now : Z) (card : Card) : bool :=
  if negb (includePartner cfg) && hasPartner card then false
  else if negb (includeUnreleased cfg) && releasedAfter now card then false
  else if negb (includeIllegal cfg) && notLegal card then false
  else true.

(** [getFilteredCommanders()], with the data set, the toggles and the
    value of [new Date()] as arguments. *)
Definition getFilteredCommanders
    (commanders : list Card) (cfg : Config) (now : Z) : list Card :=
  filter (λ card, keep cfg now card = true) commanders.

(** *** The filter as the specification words it *)

(** The card's keyword set. *)
Definition keywordSet (card : Card) : list string :=
  default [] (keywords card).

(** The card's commander-format legality, if it has one. *)
Definition commanderLegality (card : Card) : option string :=
  legalities card ≫= λ m, m !! "commander".

(** The card's release date is in the future relative to [now]. *)
Definition releasedInFuture (now : Z) (card : Card) : Prop :=
  ∃ t, releaseDate card = Some t ∧ (now < t)%Z.

(** The three exclusion conditions, word for word. *)
Definition excludedAsSpecified (cfg : Config) (now : Z) (card : Card) : Prop :=
  (includePartner cfg = false ∧ "Partner" ∈ keywordSet card)
  ∨ (includeUnreleased cfg = false ∧ releasedInFuture now card)
  ∨ (includeIllegal cfg = false ∧ commanderLegality card ≠ Some "legal").

(** The third condition as the code has it: it applies to a card that
    carries a legalities mapping. *)
Definition excludedAsCoded (cfg : Config) (now : Z) (card : Card) : Prop :=
  (includePartner cfg = false ∧ "Partner" ∈ keywordSet card)
  ∨ (includeUnreleased cfg = false ∧ releasedInFuture now card)
  ∨ (includeIllegal cfg = false ∧ is_Some (legalities card)
     ∧ commanderLegality card ≠ Some "legal").

(** The claim that the filter returns exactly the cards that a given
    exclusion rule spares, in their original relative order. *)
Definition filtersBy (excluded : Config → Z → Card → Prop)
    (commanders : list Card) (cfg : Config) (now : Z) : Prop :=
  (∀ card, card ∈ getFilteredCommanders commanders cfg now
           ↔ card ∈ commanders ∧ ¬ excluded cfg now card)
  ∧ getFilteredCommanders commanders cfg now `sublist_of` commanders.
End filter.

End Filter.

(** ** The rank resolver ([fetchEdhrecCommanderRank], [src/App.jsx]) *)

Module Resolver.

(** A parsed JSON body. *)
#[warnings="-register-all"]
Inductive Json : Type :=
| JNull
| JBool (b : bool)
| JNum (n : Js.number)
| JStr (s : string)
| JArr (items : list Json)
| JObj (members : list (string * Json)).

(** The member of an object with the given key (the keys of a parsed
    object are distinct). *)
Fixpoint member (key : string) (members : list (string * Json)) : option Json :=
  match members with
  | [] => None
  | (k, v) :: rest => if String.eqb k key then Some v else member key rest
  end.

(** [v.key] for one of the keys the resolver reads ([container],
    [json_dict], [card], [rank], [stats], [meta], [items]): reading a
    property of [null] raises; an array or a primitive has none of them,
    the result is [undefined], here [None]. *)
Definition get (v : Json) (key : string) : Js.completion (option Json) :=
  match v with
  | JNull => Js.Throw
  | JObj members => Js.Normal (member key members)
  | _ => Js.Normal None
  end.

(** Whether a value is truthy; [None] is [undefined]. *)
Definition truthy (v : option Json) : bool :=
  match v with
  | None | Some JNull => false
  | Some (JBool b) => b
  | Some (JNum n) =>
      match n with
      | Js.NaN | Js.Fin 0 => false
      | _ => true
      end
  | Some (JStr s) => negb (String.eqb s EmptyString)
  | Some (JArr _) | Some (JObj _) => true
  end.

(** [v && typeof v === 'object'] *)
Definition isObject (v : option Json) : bool :=
  match v with
  | Some (JArr _) | Some (JObj _) => true
  | _ => false
  end.

(** What the outcome of a fetch can be: the promise rejects, or a
    response arrives with its [ok] flag and a body that [res.json()]
    parses or rejects. *)
Inductive Body : Type :=
| Malformed
| Parsed (j : Json).

Inductive Response : Type :=
| NetworkError
| Reply (ok : bool) (body : Body).

(** Whether converting an object or an array of a parsed body to a
    primitive raises.  An object has the conversions of [Object.prototype]
    unless a member of its own is in their place: a member [toString] of
    its own is no function, it is passed over, [valueOf] gives no
    primitive, and the conversion raises a TypeError.  An array is
    converted by joining the strings of its elements, which converts each
    element that is an object or an array in turn. *)
Fixpoint toPrimitiveRaises (v : Json) : bool :=
  match v with
  | JObj members =>
      match member "toString" members with
      | Some _ => true
      | None => false
      end
  | JArr items => existsb toPrimitiveRaises items
  | _ => false
  end.

Section resolver.
(** [Number(s)] on a string and [String(a)] on an array whose conversion
    does not raise. *)
Variable StringToNumber : string → Js.number.
Variable arrayToString : list Json → string.
Variable encodeURIComponent : string → string.
Variable slugify : string → string.
Variable fetch : string → Response.

(** [Number(v)]: an object without a [toString] of its own has the string
    [[object Object]], which is no numeral. *)
Definition toNumber (v : option Json) : Js.completion Js.number :=
  match v with
  | None => mret Js.NaN
  | Some JNull => mret (Js.Fin 0)
  | Some (JBool b) => mret (Js.Fin (if b then 1 else 0))
  | Some (JNum n) => mret n
  | Some (JStr s) => mret (StringToNumber s)
  | Some (JArr items) =>
      if toPrimitiveRaises (JArr items) then Js.Throw
      else mret (StringToNumber (arrayToString items))
  | Some (JObj members) =>
      if toPrimitiveRaises (JObj members) then Js.Throw else mret Js.NaN
  end.

(** [return Number(v)] *)
Definition returnNumber (v : option Json) : Js.completion (option Js.number) :=
  n ← toNumber v; mret (Some n).

(** [v.key] where [v] may be [undefined]. *)
Definition prop (v : option Json) (key : string) : Js.completion (option Json) :=
  match v with
  | None => Js.Throw
  | Some j => get j key
  end.

(** [getLatestCommanderRank(json)]; [None] is [null]. *)
Definition getLatestCommanderRank (json : Json) : Js.completion Js.maybe_number :=
  if negb (isObject (Some json)) then mret None
  else
    container ← get json "container";
    if negb (isObject container) then mret None
    else
      jsonDict ← prop container "json_dict";
      if negb (isObject jsonDict) then mret None
      else
        card ← prop jsonDict "card";
        if negb (isObject card) then mret None
        else
          r ← prop card "rank";
          match r with
          | Some (JNum n) => mret (Some n)
          | Some (JStr s) => mret (Some (StringToNumber s))
          | _ => mret None
          end.

(** [j.section && j.section.rank], for [stats] and [meta]. *)
Definition nestedRank (j : Json) (section : string)
  : Js.completion (option Json) :=
  s ← get j section;
  if truthy s then prop s "rank" else mret None.

(** [it.rank || it.stats?.rank] *)
Definition itemRank (it : Json) : Js.completion (option Json) :=
  r ← get it "rank";
  if truthy r then mret r
  else
    stats ← get it "stats";
    match stats with
    | None | Some JNull => mret None
    | Some s => get s "rank"
    end.

(** The [for (const it of j.items)] loop: the rank of the first item
    that is an object and carries one. *)
Fixpoint firstItemRank (items : list Json) : Js.completion (option Js.number) :=
  match items with
  | [] => mret None
  | it :: rest =>
      if isObject (Some it) then
        r ← itemRank it;
        if truthy r then returnNumber r else firstItemRank rest
      else firstItemRank rest
  end.

(** The statements of the [try] block after [const j = await res.json()].
    [Normal (Some n)] is [return n], [Normal None] is the end of the
    block, [Throw] an exception. *)
Definition extractRank (j : Json) : Js.completion (option Js.number) :=
  latestRank ← getLatestCommanderRank j;
  match latestRank with
  | Some n => mret (Some n)
  | None =>
      r ← get j "rank";
      if truthy r then returnNumber r
      else
        r ← nestedRank j "stats";
        if truthy r then returnNumber r
        else
          r ← nestedRank j "meta";
          if truthy r then returnNumber r
          else
            items ← get j "items";
            match items with
            | Some (JArr items) => firstItemRank items
            | _ => mret None
            end
  end.

(** The ways a candidate URL can fail to give a rank: the request is
    rejected, the status is not OK, the body is malformed, no known shape
    of the body yields a rank, or reading the body raises. *)
Inductive NoRank : Response → Prop :=
| NoRank_rejected : NoRank NetworkError
| NoRank_status body : NoRank (Reply false body)
| NoRank_malformed : NoRank (Reply true Malformed)
| NoRank_shape j : extractRank j = Js.Normal None → NoRank (Reply true (Parsed j))
| NoRank_raises j : extractRank j = Js.Throw → NoRank (Reply true (Parsed j)).

(** The [try] block for one URL.  [continue] ends it like its end does. *)
Definition attempt (url : string) : Js.completion (option Js.number) :=
  match fetch url with
  | NetworkError => Js.Throw
  | Reply ok body =>
      if negb ok then Js.Normal None
      else
        match body with
        | Malformed => Js.Throw
        | Parsed j => extractRank j
        end
  end.

(** [for (const url of urlsToTry) { try { ... } catch (e) { } }
    return null;], with the URLs requested so far. *)
Fixpoint tryUrls (urls requested : list string)
  : Js.completion (list string * Js.maybe_number) :=
  match urls with
  | [] => Js.Normal (requested, None)
  | url :: rest =>
      match attempt url with
      | Js.Normal (Some n) => Js.Normal (requested ++ [url], Some n)
      | Js.Normal None => tryUrls rest (requested ++ [url])
      | Js.Throw => tryUrls rest (requested ++ [url])
      end
  end.

Definition pagesUrl : string := "https://json.edhrec.com/pages/commanders/".

Definition urlsToTry (slugOrName : string) : list string :=
  let slug := slugify slugOrName in
  [ String.append pagesUrl (String.append (encodeURIComponent slug) ".json");
    String.append pagesUrl (String.append (encodeURIComponent slug) "-1.json") ].

(** [fetchEdhrecCommanderRank(slugOrName)]: the URLs it requested, in
    order, and the rank it returns ([None] is [null]). *)
Definition fetchEdhrecCommanderRank (slugOrName : string)
  : Js.completion (list string * Js.maybe_number) :=
  tryUrls (urlsToTry slugOrName) [].
End resolver.

End Resolver.

(** ** Pairwise mode: drawing two candidates ([src/App.jsx]) *)

Module Pairing.

(** [if (b >= a) b += 1;] *)
Definition shiftDraw (a b : nat) : nat :=
  if a <=? b then b + 1 else b.

(** [pickTwoDistinct(arr)].  [a] is the value of
    [Math.floor(Math.random() * arr.length)] and [b] the value of
    [Math.floor(Math.random() * (arr.length - 1))].  [None] is [null];
    an element read out of range is [undefined], here [None]. *)
Definition pickTwoDistinct {A : Type} (arr : option (list A)) (a b : nat)
  : option (option A * option A) :=
  match arr with
  | None => None
  | Some arr =>
      if length arr <? 2 then None
      else
        let b := shiftDraw a b in
        Some (arr !! a, arr !! b)
  end.

(** All the pairs of draws [(a, b)] over an array of length [n]. *)
Definition drawPairs (n : nat) : list (nat * nat) :=
  a ← seq 0 n; b ← seq 0 (n - 1); [(a, b)].

(** The draws that select the unordered pair [{i, j}]. *)
Definition drawsOf (n i j : nat) : list (nat * nat) :=
  filter (λ d, (d.1, shiftDraw d.1 d.2) = (i, j) ∨ (d.1, shiftDraw d.1 d.2) = (j, i))
         (drawPairs n).

(** The draw that [shiftDraw a] sends onto [j]. *)
Definition unshiftDraw (a j : nat) : nat := if a <? j then j - 1 else j.

(** *** [loadNewPair] *)

(** The variables of the retry loop: [left], [right], [leftRank],
    [rightRank]; all start [undefined]. *)
Record LoopVars : Type := mkLoopVars {
  left : option Card;
  right : option Card;
  leftRank : Js.maybe_number;
  rightRank : Js.maybe_number;
}.

Definition loopStart : LoopVars :=
  {| left := None; right := None; leftRank := None; rightRank := None |}.

(** How the loop can end.  [Exhausted] is not a behaviour of the code: it
    says that the fuel given to the model ran out first. *)
Inductive LoopResult : Type :=
| Exhausted
| Raised
| Finished (attempts : nat) (v : LoopVars).

(** [typeof r !== 'number' || r <= 0] *)
Definition notPositive (r : Js.maybe_number) : bool :=
  match r with
  | None => true
  | Some n => Js.le n (Js.Fin 0)
  end.

(** [left.name === right.name] *)
Definition sameName (v : LoopVars) : bool :=
  match left v, right v with
  | Some l, Some r => String.eqb (name l) (name r)
  | _, _ => false
  end.

(** The condition of the [do ... while], without its [attempts < 10]. *)
Definition invalidPair (v : LoopVars) : bool :=
  notPositive (leftRank v) || notPositive (rightRank v) || sameName v.

(** The check after the loop:
    [typeof leftRank !== 'number' || typeof rightRank !== 'number'
     || left.name === right.name]. *)
Definition stillFails (v : LoopVars) : bool :=
  negb (bool_decide (is_Some (leftRank v)))
  || negb (bool_decide (is_Some (rightRank v)))
  || sameName v.

Section loop.
(** The pool after filtering, the two draws of each attempt and what
    [fetchEdhrecCommanderRank] answers in each attempt. *)
Variable filtered : list Card.
Variable draws : nat → nat * nat.
Variable resolver : nat → string → Js.completion Js.maybe_number.

(** The [do { ... } while (... && attempts < 10)] loop.  A [continue]
    jumps to the test of the condition. *)
Fixpoint pairLoop (fuel attempts : nat) (v : LoopVars) : LoopResult :=
  match fuel with
  | 0 => Exhausted
  | S fuel =>
      match pickTwoDistinct (Some filtered) (draws attempts).1 (draws attempts).2 with
      | Some (Some leftCard, Some rightCard) =>
          let v := {| left := Some leftCard; right := Some rightCard;
                      leftRank := leftRank v; rightRank := rightRank v |} in
          if sameName v then
            let attempts := attempts + 1 in
            if invalidPair v && (attempts <? 10)
            then pairLoop fuel attempts v
            else Finished attempts v
          else
            match resolver attempts (name leftCard),
                  resolver attempts (name rightCard) with
            | Js.Normal lRank, Js.Normal rRank =>
                let v := {| left := Some leftCard; right := Some rightCard;
                            leftRank := lRank; rightRank := rRank |} in
                let attempts := attempts + 1 in
                if invalidPair v && (attempts <? 10)
                then pairLoop fuel attempts v
                else Finished attempts v
            | _, _ => Raised
            end
      | _ => Raised
      end
  end.

Definition notEnough : string := "Not enough commanders match the filters.".
Definition failedValid : string := "Failed to fetch valid commander from list.".
Definition failedFetch : string := "Failed to fetch commander from list.".

(** [loadNewPair]: the values of [leftMeta] and [rightMeta] when it
    returns, and the number of attempts made.  [None] only if the loop
    does not end within [fuel] iterations. *)
Definition loadNewPairWith (fuel : nat) : option (Meta * Meta * nat) :=
  if length filtered <? 2 then
    Some (MetaError notEnough, MetaError notEnough, 0)
  else
    match pairLoop fuel 0 loopStart with
    | Exhausted => None
    | Raised => Some (MetaError failedFetch, MetaError failedFetch, 0)
    | Finished attempts v =>
        if stillFails v then
          Some (MetaError failedValid, MetaError failedValid, attempts)
        else
          match left v, right v with
          | Some l, Some r =>
              Some (MetaCard l (leftRank v), MetaCard r (rightRank v), attempts)
          | _, _ => Some (MetaError failedFetch, MetaError failedFetch, attempts)
          end
    end.

Definition loadNewPair : option (Meta * Meta * nat) := loadNewPairWith 10.
End loop.

End Pairing.

(** ** Pairwise mode: evaluating a guess ([src/App.jsx]) *)

Module Guess.

(** The two sides a player can pick; [makeGuess] receives the name. *)
Inductive Side : Type := SideLeft | SideRight.

Definition sideName (s : Side) : string :=
  match s with
  | SideLeft => "left"
  | SideRight => "right"
  end.

(** The state of the component that [makeGuess] reads and writes. *)
Record State : Type := mkState {
  leftMeta : option Meta;
  rightMeta : option Meta;
  streak : nat;
  lastStreak : option nat;
  highestStreak : nat;
  result : option string;
  userGuess : option string;
}.

(** [typeof meta.rank === 'number' ? meta.rank : Number.POSITIVE_INFINITY] *)
Definition rankOrInfinity (m : Meta) : Js.number :=
  match metaRank m with
  | Some n => n
  | None => Js.PosInf
  end.

(** The side with the better rank, or [tie]. *)
Definition correctSide (lRank rRank : Js.number) : string :=
  if Js.strictEq lRank rRank then "tie"
  else if Js.lt lRank rRank then "left"
  else "right".

(** [makeGuess(side)] *)
Definition makeGuess (side : string) (st : State) : State :=
  match leftMeta st, rightMeta st with
  | Some l, Some r =>
      let lRank := rankOrInfinity l in
      let rRank := rankOrInfinity r in
      let correct := correctSide lRank rRank in
      if String.eqb correct side then
        let newStreak := streak st + 1 in
        {| leftMeta := leftMeta st; rightMeta := rightMeta st;
           streak := newStreak;
           lastStreak := lastStreak st;
           highestStreak :=
             if highestStreak st <? newStreak then newStreak else highestStreak st;
           result := Some correct;
           userGuess := Some side |}
      else if String.eqb correct "tie" then
        {| leftMeta := leftMeta st; rightMeta := rightMeta st;
           streak := streak st;
           lastStreak := lastStreak st;
           highestStreak := highestStreak st;
           result := Some correct;
           userGuess := Some side |}
      else
        {| leftMeta := leftMeta st; rightMeta := rightMeta st;
           streak := 0;
           lastStreak := Some (streak st);
           highestStreak := highestStreak st;
           result := Some correct;
           userGuess := Some side |}
  | _, _ => st
  end.

End Guess.

(** ** The UTC fields of a time value

    [new Date()] is a time value [t], in milliseconds since the epoch;
    [getUTCFullYear], [getUTCMonth] and [getUTCDate] are the functions
    [YearFromTime], [MonthFromTime] and [DateFromTime] of ECMA-262 (21.4.1). *)

Module JsDate.
Local Open Scope Z_scope.

Definition msPerDay : Z := 86400000.

Definition Day (t : Z) : Z := t / msPerDay.

Definition DayFromYear (y : Z) : Z :=
  365 * (y - 1970) + (y - 1969) / 4 - (y - 1901) / 100 + (y - 1601) / 400.

Definition isLeapYear (y : Z) : bool :=
  (y mod 4 =? 0) && (negb (y mod 100 =? 0) || (y mod 400 =? 0)).

Definition DaysInYear (y : Z) : Z := if isLeapYear y then 366 else 365.

(** The largest [y] with [DayFromYear y <= day]: an estimate from the mean
    length of a year, corrected by at most one. *)
Definition yearOfDay (day : Z) : Z :=
  let y := 1970 + (400 * day) / 146097 in
  if day <? DayFromYear y then y - 1
  else if DayFromYear (y + 1) <=? day then y + 1
  else y.

Definition YearFromTime (t : Z) : Z := yearOfDay (Day t).

Definition InLeapYear (t : Z) : Z :=
  if isLeapYear (YearFromTime t) then 1 else 0.

Definition DayWithinYear (t : Z) : Z := Day t - DayFromYear (YearFromTime t).

(** The month, from 0, of the day [d] of a year ([leap] is 0 or 1). *)
Definition monthOfDay (d leap : Z) : Z :=
  if d <? 31 then 0
  else if d <? 59 + leap then 1
  else if d <? 90 + leap then 2
  else if d <? 120 + leap then 3
  else if d <? 151 + leap then 4
  else if d <? 181 + leap then 5
  else if d <? 212 + leap then 6
  else if d <? 243 + leap then 7
  else if d <? 273 + leap then 8
  else if d <? 304 + leap then 9
  else if d <? 334 + leap then 10
  else 11.

(** The day of the year on which month [m] starts. *)
Definition monthStart (m leap : Z) : Z :=
  if m =? 0 then 0
  else if m =? 1 then 31
  else if m =? 2 then 59 + leap
  else if m =? 3 then 90 + leap
  else if m =? 4 then 120 + leap
  else if m =? 5 then 151 + leap
  else if m =? 6 then 181 + leap
  else if m =? 7 then 212 + leap
  else if m =? 8 then 243 + leap
  else if m =? 9 then 273 + leap
  else if m =? 10 then 304 + leap
  else 334 + leap.

Definition MonthFromTime (t : Z) : Z :=
  monthOfDay (DayWithinYear t) (InLeapYear t).

Definition DateFromTime (t : Z) : Z :=
  DayWithinYear t - monthStart (MonthFromTime t) (InLeapYear t) + 1.

Definition getUTCFullYear : Z → Z := YearFromTime.
Definition getUTCMonth : Z → Z := MonthFromTime.
Definition getUTCDate : Z → Z := DateFromTime.

End JsDate.

(** ** Daily mode ([src/Daily.jsx]) *)

Module Daily.

(** [getRanks(cards)]: [card.rank ?? 9999] for each card. *)
Definition getRanks (cards : list Card) : list Js.number :=
  (λ card, default (Js.Fin 9999) (rank card)) <$> cards.

(** [getDailySeed()], with the value of [new Date()] as argument. *)
Definition getDailySeed (now : Z) : Js.number :=
  let year := JsDate.getUTCFullYear now in
  let month := Js.padStart 2 "0" (Js.toString (JsDate.getUTCMonth now + 1)) in
  let day := Js.padStart 2 "0" (Js.toString (JsDate.getUTCDate now)) in
  Js.integerOfString
    (String.append (Js.toString year) (String.append month day)).

(** [{ ...card, rank }] *)
Definition withRank (card : Card) (r : Js.number) : Card :=
  {| name := name card; card_id := card_id card; keywords := keywords card;
     released_at := released_at card; legalities := legalities card;
     rank := Some r |}.

Section sequencer.
(** The pool [getFilteredCommanders()] returns, the answer of
    [fetchEdhrecCommanderRank] for each name, and the value of
    [Math.floor(seededRandom(seed) * len)] for each seed and length. *)
Variable pool : list Card.
Variable rankOf : string → Js.maybe_number.
Variable seededIndex : Js.number → nat → nat.

(** The [while] loop of [pickValidRankedCommanders].  Reading [name] off
    the [undefined] an index out of range yields raises.  The outer
    [None] says that the fuel of the model ran out. *)
Fixpoint pickLoop (n maxAttempts : nat) (seedBase : Js.number)
    (fuel : nat) (arr result : list Card) (attempts : nat)
  : option (Js.completion (list Card)) :=
  if (length result <? n) && negb (length arr =? 0) && (attempts <? maxAttempts)
  then
    match fuel with
    | 0 => None
    | S fuel =>
        let idx :=
          seededIndex (Js.add seedBase (Js.Fin (Z.of_nat attempts))) (length arr) in
        match arr !! idx with
        | None => Some Js.Throw
        | Some card =>
            let arr := delete idx arr in
            let r := rankOf (name card) in
            let result :=
              match r with
              | Some rank =>
                  if Js.gt rank (Js.Fin 0) then result ++ [withRank card rank]
                  else result
              | None => result
              end in
            pickLoop n maxAttempts seedBase fuel arr result (attempts + 1)
        end
    end
  else Some (Js.Normal result).

(** [pickValidRankedCommanders(n, maxAttempts)] at the time [now]. *)
Definition pickValidRankedCommanders (n maxAttempts : nat) (now : Z)
  : option (Js.completion (list Card)) :=
  pickLoop n maxAttempts (getDailySeed now) maxAttempts pool [] 0.

(** The daily selection: [pickValidRankedCommanders(7)]. *)
Definition dailySelection (now : Z) : option (Js.completion (list Card)) :=
  pickValidRankedCommanders 7 50 now.
End sequencer.

(** *** The puzzle *)

(** An entry of [guessHistory]. *)
Record Guess : Type := mkGuess {
  correctness : list bool;
  ids : string;
}.

Record State : Type := mkState {
  order : list Card;
  guessHistory : list Guess;
  isSolved : bool;
  correctPositions : list bool;
}.

(** The comparison [Array.prototype.sort] makes with the comparator
    [(a, b) => a - b]: a NaN result counts as 0. *)
Definition sortCompare (a b : Js.number) : Js.number :=
  match Js.sub a b with
  | Js.NaN => Js.Fin 0
  | v => v
  end.

(** [Array.prototype.sort] is stable; it is modelled by a stable insertion
    sort.  [insertRank x l] puts [x] before the first element that does
    not sort strictly before it. *)
Fixpoint insertRank (x : Js.number) (l : list Js.number) : list Js.number :=
  match l with
  | [] => [x]
  | y :: l' =>
      if Js.lt (sortCompare y x) (Js.Fin 0) then y :: insertRank x l'
      else x :: l
  end.

(** [[...ranks].sort((a, b) => a - b)] *)
Definition sortRanks (ranks : list Js.number) : list Js.number :=
  foldr insertRank [] ranks.

(** [ranks.map((rank, i) => rank === sortedRanks[i])] *)
Definition positionsCorrect (ranks sortedRanks : list Js.number) : list bool :=
  imap (λ i r, match sortedRanks !! i with
               | Some s => Js.strictEq r s
               | None => false
               end) ranks.

(** [order.map(card => card.id).join(',')] *)
Definition joinIds (cards : list Card) : string :=
  Js.join "," (card_id <$> cards).

(** [handleGuess()] *)
Definition handleGuess (st : State) : State :=
  let ranks := getRanks (order st) in
  let sortedRanks := sortRanks ranks in
  let correctness := positionsCorrect ranks sortedRanks in
  let ids := joinIds (order st) in
  {| order := order st;
     guessHistory := guessHistory st ++ [ {| correctness := correctness; ids := ids |} ];
     isSolved := if forallb (λ b, b) correctness then true else isSolved st;
     correctPositions := correctness |}.

(** The [disabled] attribute of the guess button. *)
Definition guessDisabled (st : State) : bool :=
  if isSolved st then false
  else if length (guessHistory st) =? 0 then false
  else
    match guessHistory st !! (length (guessHistory st) - 1) with
    | Some last => String.eqb (ids last) (joinIds (order st))
    | None => false
    end.

(** [setOrder(newOrder)] *)
Definition setOrder (newOrder : list Card) (st : State) : State :=
  {| order := newOrder; guessHistory := guessHistory st;
     isSolved := isSolved st; correctPositions := correctPositions st |}.

End Daily.

(** ** Reordering the daily cards by dragging ([src/Daily.jsx]) *)

Module Drag.

(** What the drag handlers read and write: [order], [correctPositions] and
    [draggedIdx].  An entry [None] of [order] is [undefined]; [draggedIdx]
    is [null] ([None]) or an integer. *)
Record State : Type := mkState {
  order : list (option Card);
  correctPositions : list bool;
  draggedIdx : option Z;
}.

(** [arr[i]] for an integer [i]: [undefined] out of range. *)
Definition at_ {A : Type} (arr : list A) (i : Z) : option A :=
  if (i <? 0)%Z then None else arr !! Z.to_nat i.

(** [correctPositions[idx]] as a condition: [undefined] is falsy. *)
Definition isCorrectAt (correct : list bool) (idx : Z) : bool :=
  default false (at_ correct idx).

(** The index at which [splice(start, ...)] works on an array of length
    [len]: a negative [start] counts from the end, and the result is
    clamped to the array. *)
Definition spliceStart (len : nat) (start : Z) : nat :=
  if (start <? 0)%Z then Z.to_nat (Z.max (Z.of_nat len + start) 0)
  else Nat.min (Z.to_nat start) len.

(** [arr.splice(start, 1)]: the removed elements and the array left. *)
Definition spliceOut {A : Type} (arr : list A) (start : Z) : list A * list A :=
  let s := spliceStart (length arr) start in
  (take 1 (drop s arr), delete s arr).

(** [arr.splice(start, 0, item)] *)
Definition spliceIn {A : Type} (arr : list A) (start : Z) (item : A) : list A :=
  let s := spliceStart (length arr) start in
  take s arr ++ item :: drop s arr.

(** [const [moved] = removed]: [undefined] when nothing was removed. *)
Definition firstOf {A : Type} (removed : list (option A)) : option A :=
  match removed with
  | [] => None
  | x :: _ => x
  end.

(** [getIncorrectIndices()]:
    [correctPositions.map((isCorrect, idx) => isCorrect ? null : idx)
       .filter(idx => idx !== null)] *)
Definition getIncorrectIndices (correct : list bool) : list nat :=
  omap id (imap (λ idx (isCorrect : bool), if isCorrect then None else Some idx) correct).

(** [indices.indexOf(z)]; [None] is -1. *)
Fixpoint indexOf (z : Z) (indices : list nat) : option nat :=
  match indices with
  | [] => None
  | i :: rest => if (Z.of_nat i =? z)%Z then Some 0 else S <$> indexOf z rest
  end.

(** [arr[i] = v]: past the end the array grows, with holes. *)
Definition assign {A : Type} (arr : list (option A)) (i : nat) (v : option A)
  : list (option A) :=
  if i <? length arr then <[i:=v]> arr
  else arr ++ replicate (i - length arr) None ++ [v].

(** [indices.forEach((i, k) => { newOrder[i] = cards[k]; })], from the
    position [k] of [indices] on. *)
Fixpoint writeBack {A : Type} (newOrder : list (option A)) (indices : list nat)
    (k : nat) (cards : list (option A)) : list (option A) :=
  match indices with
  | [] => newOrder
  | i :: rest => writeBack (assign newOrder i (default None (cards !! k))) rest (S k) cards
  end.

(** [handleDragStart(idx)] *)
Definition handleDragStart (idx : Z) (st : State) : State :=
  if (length (correctPositions st) =? 0) || negb (isCorrectAt (correctPositions st) idx)
  then {| order := order st; correctPositions := correctPositions st;
          draggedIdx := Some idx |}
  else st.

(** [handleDragOver(idx)] *)
Definition handleDragOver (idx : Z) (st : State) : State :=
  if length (correctPositions st) =? 0 then
    match draggedIdx st with
    | None => st
    | Some dragged =>
        if (dragged =? idx)%Z then st
        else
          let '(removed, newOrder) := spliceOut (order st) dragged in
          let moved := firstOf removed in
          {| order := spliceIn newOrder idx moved;
             correctPositions := correctPositions st;
             draggedIdx := Some idx |}
    end
  else
    match draggedIdx st with
    | None => st
    | Some dragged =>
        if (dragged =? idx)%Z || isCorrectAt (correctPositions st) idx then st
        else
          let incorrectIndices := getIncorrectIndices (correctPositions st) in
          match indexOf dragged incorrectIndices, indexOf idx incorrectIndices with
          | Some draggedIncorrectIdx, Some overIncorrectIdx =>
              let incorrectCards :=
                (λ i, default None (order st !! i)) <$> incorrectIndices in
              let '(removed, incorrectCards) :=
                spliceOut incorrectCards (Z.of_nat draggedIncorrectIdx) in
              let moved := firstOf removed in
              let incorrectCards :=
                spliceIn incorrectCards (Z.of_nat overIncorrectIdx) moved in
              {| order := writeBack (order st) incorrectIndices 0 incorrectCards;
                 correctPositions := correctPositions st;
                 draggedIdx := Some idx |}
          | _, _ => st
          end
    end.

(** [handleDragEnd()] *)
Definition handleDragEnd (st : State) : State :=
  {| order := order st; correctPositions := correctPositions st;
     draggedIdx := None |}.

(** The events of a drag and the handler each one runs. *)
Inductive Event : Type :=
| DragStart (idx : Z)
| DragOver (idx : Z)
| DragEnd.

Definition handle (st : State) (ev : Event) : State :=
  match ev with
  | DragStart idx => handleDragStart idx st
  | DragOver idx => handleDragOver idx st
  | DragEnd => handleDragEnd st
  end.

Definition run (events : list Event) (st : State) : State :=
  foldl handle st events.

(** An event whose index is the index of a card of a round of [len] cards. *)
Definition onCard (len : nat) (ev : Event) : Prop :=
  match ev with
  | DragStart idx | DragOver idx => (0 ≤ idx < Z.of_nat len)%Z
  | DragEnd => True
  end.

(** The state of the handlers in a round of the daily mode, and the cards
    of an order that are defined. *)
Definition ofRound (st : Daily.State) : State :=
  {| order := Some <$> Daily.order st;
     correctPositions := Daily.correctPositions st;
     draggedIdx := None |}.

Definition cards (order : list (option Card)) : list Card := omap id order.

(** The handlers are in step with the round: [correctPositions] is empty
    (no guess yet) or as long as [order], and [draggedIdx], when set, is the
    index of a card. *)
Definition inStep (st : State) : Prop :=
  (correctPositions st = [] ∨ length (correctPositions st) = length (order st))
  ∧ ∀ dragged, draggedIdx st = Some dragged →
               (0 ≤ dragged < Z.of_nat (length (order st)))%Z.

(** The entries at the incorrect positions, the entries at the correct
    positions, and the order with the incorrect positions filled anew from
    a list, position by position. *)
Fixpoint incorrectOf {A : Type} (correct : list bool) (l : list A) : list A :=
  match correct, l with
  | c :: correct, x :: l => if c then incorrectOf correct l else x :: incorrectOf correct l
  | _, _ => []
  end.

Fixpoint correctOf {A : Type} (correct : list bool) (l : list A) : list A :=
  match correct, l with
  | c :: correct, x :: l => if c then x :: correctOf correct l else correctOf correct l
  | _, _ => []
  end.

Fixpoint refill {A : Type} (correct : list bool) (l vals : list (option A))
  : list (option A) :=
  match correct, l with
  | c :: correct, x :: l =>
      if c then x :: refill correct l vals
      else default None (head vals) :: refill correct l (tail vals)
  | _, _ => l
  end.

End Drag.

(** ** Percent-encoding

    [encodeURIComponent] on a string given by its UTF-8 bytes: a byte of
    the unreserved set (the ASCII letters and digits and [- _ . ! ~ * ' ( )])
    stays, every other byte becomes [%] and its two upper-case hexadecimal
    digits. *)

Module Uri.

Definition isUnreserved (c : ascii) : bool :=
  let n := nat_of_ascii c in
  ((65 <=? n) && (n <=? 90)) || ((97 <=? n) && (n <=? 122))
  || ((48 <=? n) && (n <=? 57))
  || bool_decide (c ∈ ["-"; "_"; "."; "!"; "~"; "*"; "'"; "("; ")"]%char).

Definition hexDigit (n : nat) : ascii :=
  if n <? 10 then ascii_of_nat (48 + n) else ascii_of_nat (55 + n).

Definition encodeByte (c : ascii) : list ascii :=
  if isUnreserved c then [c]
  else
    let n := nat_of_ascii c in
    ["%"%char; hexDigit (n / 16); hexDigit (n mod 16)].

Definition encodeURIComponent (s : string) : string :=
  string_of_list_ascii (list_ascii_of_string s ≫= encodeByte).

End Uri.

(** ** The symbols of a mana cost ([renderManaIcons], [src/App.jsx])

    The loop that reads the symbols off a mana cost such as [{2}{W/U}]:
    [symbolRegex.exec] with [/\{([^}]+)\}/g], each group stripped of its
    slashes.  The cost is given by its UTF-8 bytes; the three characters the
    loop looks for are ASCII, so the groups are the same as on code units. *)

Module Mana.

Definition openBrace : ascii := "{".
Definition closeBrace : ascii := "}".
Definition slash : ascii := "/".

(** What [[^}]+] takes at the head of [s], being greedy: the longest run of
    characters other than the closing brace, and the rest. *)
Fixpoint classRun (s : list ascii) : list ascii * list ascii :=
  match s with
  | [] => ([], [])
  | c :: rest =>
      if Ascii.eqb c closeBrace then ([], s)
      else let '(run, after) := classRun rest in (c :: run, after)
  end.

(** A match of the pattern at the head of [s]: the group and what follows
    the match.  A shorter run is followed by a character of the run and not
    by the closing brace, so giving characters back finds no other match. *)
Definition matchHere (s : list ascii) : option (list ascii * list ascii) :=
  match s with
  | [] => None
  | c :: rest =>
      if Ascii.eqb c openBrace then
        match classRun rest with
        | ((_ :: _) as group, close :: after) =>
            if Ascii.eqb close closeBrace then Some (group, after) else None
        | _ => None
        end
      else None
  end.

(** [symbolRegex.exec(manaCost)], [s] being the cost from [lastIndex] on:
    the first match at or after it; [None] is [null]. *)
Fixpoint exec (s : list ascii) : option (list ascii * list ascii) :=
  match matchHere s with
  | Some found => Some found
  | None =>
      match s with
      | [] => None
      | _ :: rest => exec rest
      end
  end.

(** [match[1].replace(/\//g, '')] *)
Definition removeSlashes (group : list ascii) : list ascii :=
  List.filter (λ c, negb (Ascii.eqb c slash)) group.

(** [while ((match = symbolRegex.exec(manaCost)) !== null) symbols.push(...)] *)
Fixpoint symbolsLoop (fuel : nat) (s : list ascii) (symbols : list string)
  : option (list string) :=
  match fuel with
  | 0 => None
  | S fuel =>
      match exec s with
      | None => Some symbols
      | Some (group, after) =>
          symbolsLoop fuel after
            (symbols ++ [string_of_list_ascii (removeSlashes group)])
      end
  end.

(** The symbols [renderManaIcons] draws for a mana cost; [None] if the loop
    did not end within the fuel. *)
Definition manaSymbols (manaCost : string) : option (list string) :=
  let s := list_ascii_of_string manaCost in
  symbolsLoop (S (length s)) s [].

End Mana.

(** ** The look of the guess button ([src/Daily.jsx]) *)

Module DailyView.

Definition enabledClass : string := "bg-indigo-600 hover:bg-indigo-500".
Definition disabledClass : string := "bg-gray-500 cursor-not-allowed".

(** The colour classes in the [className] of the guess button. *)
Definition guessClass (st : Daily.State) : string :=
  if Daily.isSolved st then enabledClass
  else if length (Daily.guessHistory st) =? 0 then enabledClass
  else
    match Daily.guessHistory st !! (length (Daily.guessHistory st) - 1) with
    | Some last =>
        if String.eqb (Daily.ids last) (Daily.joinIds (Daily.order st))
        then disabledClass else enabledClass
    | None => enabledClass
    end.

End DailyView.

(** ** Notions the statements use *)

Module Props.
Local Open Scope Z_scope.

(** The side that holds the strictly lower of two different ranks. *)
Definition lowerSide (l r : Z) : Guess.Side :=
  if l <? r then Guess.SideLeft else Guess.SideRight.

(** The insertion sort of [Daily.sortRanks], on integers. *)
Fixpoint insertZ (x : Z) (l : list Z) : list Z :=
  match l with
  | [] => [x]
  | y :: l' => if y <? x then y :: insertZ x l' else x :: l
  end.

Definition sortZ (l : list Z) : list Z := foldr insertZ [] l.

(** A card id without a comma, as the ids of the data set are. *)
Fixpoint commaFree (s : string) : Prop :=
  match s with
  | EmptyString => True
  | String c s => c ≠ ","%char ∧ commaFree s
  end.

(** The value of a decimal numeral read from the left after [acc]. *)
Fixpoint valueAcc (d : Decimal.uint) (acc : Z) : Z :=
  match d with
  | Decimal.Nil => acc
  | Decimal.D0 d => valueAcc d (acc * 10 + 0)
  | Decimal.D1 d => valueAcc d (acc * 10 + 1)
  | Decimal.D2 d => valueAcc d (acc * 10 + 2)
  | Decimal.D3 d => valueAcc d (acc * 10 + 3)
  | Decimal.D4 d => valueAcc d (acc * 10 + 4)
  | Decimal.D5 d => valueAcc d (acc * 10 + 5)
  | Decimal.D6 d => valueAcc d (acc * 10 + 6)
  | Decimal.D7 d => valueAcc d (acc * 10 + 7)
  | Decimal.D8 d => valueAcc d (acc * 10 + 8)
  | Decimal.D9 d => valueAcc d (acc * 10 + 9)
  end.

(** The two-character field of a number below 100. *)
Definition twoDigits (k : Z) : string := Js.padStart 2 "0" (Js.toString k).

(** The integer the seed is for a year, a month (from 1) and a date. *)
Definition seedValue (y m d : Z) : Z :=
  if 0 <=? y then y * 10000 + m * 100 + d
  else - ((- y) * 10000 + m * 100 + d).

End Props.

(** ** Sample data *)

Module Samples.
Local Open Scope Z_scope.

(** A card with a name, an id and, when given, a rank. *)
Definition card (name id : string) (r : Js.maybe_number) : Card :=
  {| name := name; card_id := id; keywords := None; released_at := None;
     legalities := None; rank := r |}.

Definition cardA : Card := card "Atraxa, Praetors' Voice" "a" None.
Definition cardB : Card := card "Edgar Markov" "b" None.

(** A card whose name and id are [id], with the rank [r]. *)
Definition rankedCard (id : string) (r : Z) : Card := card id id (Some (Js.Fin r)).

(** A card of the data set that carries no legalities mapping. *)
Definition unlistedCard : Card :=
  {| name := "Test Card"; card_id := "t0"; keywords := Some [];
     released_at := Some "2020-01-01"; legalities := None; rank := None |}.

(** Illegal cards switched off, the two other toggles on. *)
Definition onlyLegal : Filter.Config :=
  {| Filter.includePartner := true; Filter.includeUnreleased := true;
     Filter.includeIllegal := false |}.

(** A pairwise round with the ranks [l] and [r], a streak of 6 and a
    high-water mark of 9. *)
Definition pairState (l r : Z) : Guess.State :=
  {| Guess.leftMeta := Some (MetaCard cardA (Some (Js.Fin l)));
     Guess.rightMeta := Some (MetaCard cardB (Some (Js.Fin r)));
     Guess.streak := 6; Guess.lastStreak := None; Guess.highestStreak := 9;
     Guess.result := None; Guess.userGuess := None |}.

(** The round [loadNewPair] leaves when it gives up. *)
Definition errorState : Guess.State :=
  {| Guess.leftMeta := Some (MetaError Pairing.failedValid);
     Guess.rightMeta := Some (MetaError Pairing.failedValid);
     Guess.streak := 6; Guess.lastStreak := None; Guess.highestStreak := 9;
     Guess.result := None; Guess.userGuess := None |}.

(** A daily round before its first guess. *)
Definition roundOf (cards : list Card) : Daily.State :=
  {| Daily.order := cards; Daily.guessHistory := []; Daily.isSolved := false;
     Daily.correctPositions := [] |}.

(** A resolver that answers the number 0 for every name. *)
Definition rankZero (attempt : nat) (name : string) : Js.completion Js.maybe_number :=
  Js.Normal (Some (Js.Fin 0)).

(** A network on which every request is rejected. *)
Definition offline (url : string) : Resolver.Response := Resolver.NetworkError.

(** A body that carries the rank [r] where [getLatestCommanderRank] looks. *)
Definition cardPage (r : Resolver.Json) : Resolver.Json :=
  Resolver.JObj
    [("container",
      Resolver.JObj
        [("json_dict",
          Resolver.JObj [("card", Resolver.JObj [("rank", r)])])])].

(** A network that answers every request with the page of a card of rank 0. *)
Definition zeroPages (url : string) : Resolver.Response :=
  Resolver.Reply true (Resolver.Parsed (cardPage (Resolver.JNum (Js.Fin 0)))).

(** [fetchEdhrecCommanderRank] on ASCII names, over the network [fetch]. *)
Definition fetchRank (fetch : string → Resolver.Response) (name : string)
  : Js.completion (list string * Js.maybe_number) :=
  Resolver.fetchEdhrecCommanderRank (λ _, Js.NaN) (λ _, EmptyString) (λ s, s)
    (Slug.slugify (λ s, s) (λ s, s) Slug.asciiLowerCase) fetch name.

(** The rank resolver of [loadNewPair] over the network [fetch]. *)
Definition resolveVia (fetch : string → Resolver.Response)
    (attempt : nat) (name : string) : Js.completion Js.maybe_number :=
  answer ← fetchRank fetch name; mret (answer.2).

(** Three cards without a rank, the rank answers for their names, and an
    index function that takes the seed modulo the length. *)
Definition dailyPool : list Card :=
  [card "Alpha" "a" None; card "Beta" "b" None; card "Gamma" "c" None].

Definition dailyRanks (name : string) : Js.maybe_number :=
  if String.eqb name "Alpha" then Some (Js.Fin 5)
  else if String.eqb name "Gamma" then Some (Js.Fin 3)
  else None.

Definition seedModulo (seed : Js.number) (len : nat) : nat :=
  match seed with
  | Js.Fin z => Z.to_nat (z mod Z.of_nat len)
  | _ => 0%nat
  end.

End Samples.

(** * Properties *)

Ltac split_tests :=
  repeat match goal with
         | |- context [Z.ltb ?a ?b] => destruct (Z.ltb_spec a b)
         | |- context [Z.leb ?a ?b] => destruct (Z.leb_spec a b)
         | |- context [Z.eqb ?a ?b] => destruct (Z.eqb_spec a b)
         end.

Import Props Samples.

(** ** Notions the further statements use *)

Module Attempts.

Section attempts.
Variable filtered : list Card.
Variable draws : nat → nat * nat.
Variable resolver : nat → string → Js.completion Js.maybe_number.

(** The two cards the attempt [i] of [loadNewPair] draws. *)
Definition drawnPair (i : nat) : option (option Card * option Card) :=
  Pairing.pickTwoDistinct (Some filtered) (draws i).1 (draws i).2.

(** The attempt [i] draws two cards and is rejected by the test of the
    loop: the names are equal, or a rank is missing or not above 0. *)
Inductive Rejected (i : nat) : Prop :=
| rejected_name l r :
    drawnPair i = Some (Some l, Some r) → name l = name r → Rejected i
| rejected_rank l r lRank rRank :
    drawnPair i = Some (Some l, Some r) → name l ≠ name r →
    resolver i (name l) = Js.Normal lRank →
    resolver i (name r) = Js.Normal rRank →
    Pairing.notPositive lRank = true ∨ Pairing.notPositive rRank = true →
    Rejected i.

(** The attempt [i] draws two cards that the check after the loop refuses:
    the names are equal, or a rank is not a number. *)
Inductive Unresolved (i : nat) : Prop :=
| unresolved_name l r :
    drawnPair i = Some (Some l, Some r) → name l = name r → Unresolved i
| unresolved_rank l r lRank rRank :
    drawnPair i = Some (Some l, Some r) → name l ≠ name r →
    resolver i (name l) = Js.Normal lRank →
    resolver i (name r) = Js.Normal rRank →
    lRank = None ∨ rRank = None →
    Unresolved i.
End attempts.

End Attempts.

Module FilterOrder.

(** [cfg'] has every toggle on that [cfg] has on. *)
Definition relaxes (cfg cfg' : Filter.Config) : Prop :=
  (Filter.includePartner cfg = true → Filter.includePartner cfg' = true)
  ∧ (Filter.includeUnreleased cfg = true → Filter.includeUnreleased cfg' = true)
  ∧ (Filter.includeIllegal cfg = true → Filter.includeIllegal cfg' = true).

Definition allOn : Filter.Config :=
  {| Filter.includePartner := true; Filter.includeUnreleased := true;
     Filter.includeIllegal := true |}.

End FilterOrder.

Module Selection.

(** A card of the pool with the rank the resolver answers for its name. *)
Definition resolved (rankOf : string → Js.maybe_number) (c : Card) : Card :=
  match rankOf (name c) with
  | Some r => Daily.withRank c r
  | None => c
  end.

(** The resolver answers a number above 0 for the name of the card. *)
Definition qualifies (rankOf : string → Js.maybe_number) (c : Card) : Prop :=
  ∃ r, rankOf (name c) = Some r ∧ Js.gt r (Js.Fin 0) = true.

End Selection.

Module Ranks.

(** The integer a number is, if it is one. *)
Definition integer (n : Js.number) : option Z :=
  match n with
  | Js.Fin z => Some z
  | _ => None
  end.

End Ranks.

Module MoreSamples.

(** A network that answers every request with the page of a card of rank 42. *)
Definition pages42 (url : string) : Resolver.Response :=
  Resolver.Reply true
    (Resolver.Parsed (Samples.cardPage (Resolver.JNum (Js.Fin 42)))).

(** The conversions of the host that the sample pages do not reach. *)
Definition noNumber (s : string) : Js.number := Js.NaN.
Definition noString (items : list Resolver.Json) : string := EmptyString.

(** A round of three cards after a first guess: the card at the first
    position is in its place, the two others are not. *)
Definition guessedRound : Daily.State :=
  Daily.handleGuess
    (Samples.roundOf [Samples.rankedCard "b" 3; Samples.rankedCard "a" 10;
                      Samples.rankedCard "c" 7]).

(** The second card is picked up, dragged over the third and dropped. *)
Definition swapLastTwo : list Drag.Event :=
  [Drag.DragStart 1; Drag.DragOver 2; Drag.DragEnd].

End MoreSamples.

Import MoreSamples.

Module ManaCost.

(** A symbol as a mana cost writes it, between braces, and the cost that
    writes the symbols of a list one after the other. *)
Definition braced (sym : list ascii) : list ascii :=
  Mana.openBrace :: sym ++ [Mana.closeBrace].

Definition cost (syms : list (list ascii)) : list ascii := syms ≫= braced.

(** A text the pattern can take as a group. *)
Definition groupLike (sym : list ascii) : Prop :=
  sym ≠ [] ∧ (Mana.closeBrace ∉ sym).

(** What is drawn for a group. *)
Definition symbolOf (group : list ascii) : string :=
  string_of_list_ascii (Mana.removeSlashes group).

End ManaCost.

Module RankOrder.

(** The order of the ranks that are numbers other than NaN: the integers
    in their order, above negative and below positive infinity. *)
Definition below (a b : Js.number) : Prop :=
  match a, b with
  | Js.NegInf, Js.Fin _ | Js.NegInf, Js.PosInf | Js.Fin _, Js.PosInf => True
  | Js.Fin x, Js.Fin y => (x < y)%Z
  | _, _ => False
  end.

(** The side holds the strictly lower of the ranks [l] (left) and [r]
    (right). *)
Definition holdsLower (l r : Js.number) (side : Guess.Side) : Prop :=
  match side with
  | Guess.SideLeft => below l r
  | Guess.SideRight => below r l
  end.

(** A pairwise round with the ranks [l] and [r], any numbers, a streak of 6
    and a high-water mark of 9. *)
Definition numberState (l r : Js.number) : Guess.State :=
  {| Guess.leftMeta := Some (MetaCard Samples.cardA (Some l));
     Guess.rightMeta := Some (MetaCard Samples.cardB (Some r));
     Guess.streak := 6; Guess.lastStreak := None; Guess.highestStreak := 9;
     Guess.result := None; Guess.userGuess := None |}.

End RankOrder.

Module Bodies.

(** Some object of the value, at any depth, has a member [toString] of its
    own. *)
Fixpoint hasToString (v : Resolver.Json) : bool :=
  match v with
  | Resolver.JObj members =>
      match Resolver.member "toString" members with
      | Some _ => true
      | None => false
      end
      || existsb (λ kv, let '(_, w) := kv in hasToString w) members
  | Resolver.JArr items => existsb hasToString items
  | _ => false
  end.

(** A body whose rank is an object with a member [toString]. *)
Definition toStringPage : Resolver.Json :=
  Resolver.JObj
    [("rank", Resolver.JObj [("toString", Resolver.JNum (Js.Fin 1))])].

End Bodies.


Section pairing_facts.
Import Pairing.

Lemma shiftDraw_ne a b : shiftDraw a b ≠ a.
Proof. unfold shiftDraw. destruct (Nat.leb_spec a b); lia. Qed.

Lemma shiftDraw_lt n a b : b < n - 1 → shiftDraw a b < n.
Proof. unfold shiftDraw. destruct (Nat.leb_spec a b); lia. Qed.

Lemma shiftDraw_inj a b b' : shiftDraw a b = shiftDraw a b' → b = b'.
Proof.
  unfold shiftDraw.
  destruct (Nat.leb_spec a b), (Nat.leb_spec a b'); lia.
Qed.

Lemma shiftDraw_unshiftDraw a j : j ≠ a → shiftDraw a (unshiftDraw a j) = j.
Proof.
  unfold shiftDraw, unshiftDraw. intros ?.
  destruct (Nat.ltb_spec a j).
  - destruct (Nat.leb_spec a (j - 1)); lia.
  - destruct (Nat.leb_spec a j); lia.
Qed.

Lemma unshiftDraw_lt n a j : a < n → j < n → j ≠ a → unshiftDraw a j < n - 1.
Proof. unfold unshiftDraw. destruct (Nat.ltb_spec a j); lia. Qed.

Lemma elem_of_drawPairs n a b : (a, b) ∈ drawPairs n ↔ a < n ∧ b < n - 1.
Proof.
  unfold drawPairs. rewrite list_elem_of_bind. split.
  - intros (a' & Hb & Ha). apply list_elem_of_bind in Hb as (b' & Hb & Hb').
    apply list_elem_of_singleton in Hb. simplify_eq.
    apply elem_of_seq in Ha, Hb'. lia.
  - intros [Ha Hb]. exists a. split; [|apply elem_of_seq; lia].
    apply list_elem_of_bind. exists b. split; [by apply list_elem_of_singleton|].
    apply elem_of_seq; lia.
Qed.

Lemma NoDup_drawPairs n : NoDup (drawPairs n).
Proof.
  unfold drawPairs. apply NoDup_bind; [| |apply NoDup_seq].
  - intros a a' [x y] _ _ Hx Hy.
    apply list_elem_of_bind in Hx as (b & Hb & _).
    apply list_elem_of_bind in Hy as (b' & Hb' & _).
    apply list_elem_of_singleton in Hb, Hb'. congruence.
  - intros a _. apply NoDup_bind; [| |apply NoDup_seq].
    + intros b b' [x y] _ _ Hx Hy.
      apply list_elem_of_singleton in Hx, Hy. congruence.
    + intros b _. apply NoDup_singleton.
Qed.

End pairing_facts.

Section pairing_spec.
Import Pairing.

Lemma length_drawPairs n : length (drawPairs n) = n * (n - 1).
Proof.
  unfold drawPairs.
  assert (∀ (l : list nat) m,
             length (l ≫= λ a, seq 0 m ≫= λ b, [(a, b)]) = length l * m) as H.
  { intros l m.
    assert (∀ (a k : nat), length (seq k m ≫= λ b, [(a, b)]) = m) as Hrow.
    { intros a. induction m as [|m IHm]; intros k; [done|].
      simpl. f_equal. apply IHm. }
    induction l as [|a l IH]; [done|].
    rewrite bind_cons, length_app, IH, Hrow. done. }
  by rewrite H, length_seq.
Qed.

Lemma drawsOf_Permutation n i j :
  i < n → j < n → i ≠ j →
  drawsOf n i j ≡ₚ [(i, unshiftDraw i j); (j, unshiftDraw j i)].
Proof.
  intros Hi Hj Hij. apply NoDup_Permutation.
  - apply NoDup_filter, NoDup_drawPairs.
  - apply NoDup_cons. split; [|apply NoDup_singleton].
    rewrite list_elem_of_singleton. congruence.
  - intros [a b]. unfold drawsOf.
    rewrite list_elem_of_filter, elem_of_drawPairs. simpl.
    rewrite elem_of_cons, list_elem_of_singleton. split.
    + intros [[H|H] [Ha Hb]]; simplify_eq; [left|right]; f_equal;
        eapply shiftDraw_inj; rewrite shiftDraw_unshiftDraw; done.
    + intros [H|H]; simplify_eq.
      * rewrite shiftDraw_unshiftDraw by done.
        split; [by left|]. split; [done|]. by apply unshiftDraw_lt.
      * rewrite shiftDraw_unshiftDraw by done.
        split; [by right|]. split; [done|]. by apply unshiftDraw_lt.
Qed.

(** C2.  [pickTwoDistinct] returns [null] on an array shorter than 2.  On an
    array of length n >= 2, for draws a < n and b < n - 1 it returns the
    elements at the indices a and [shiftDraw a b], which are in range and
    distinct; the map from the draws to the ordered index pair is injective
    and reaches every ordered pair of distinct indices, so it is a bijection
    between the n(n-1) draw pairs and those pairs, and every unordered pair
    is selected by exactly two of the draw pairs. *)
Theorem pickTwoDistinct_spec {A : Type} (arr : list A) :
  let n := length arr in
  (n < 2 → ∀ a b, pickTwoDistinct (Some arr) a b = None)
  ∧ (2 ≤ n →
     (∀ a b, a < n → b < n - 1 →
        ∃ x y, pickTwoDistinct (Some arr) a b = Some (Some x, Some y)
               ∧ arr !! a = Some x ∧ arr !! shiftDraw a b = Some y
               ∧ a ≠ shiftDraw a b ∧ shiftDraw a b < n)
     ∧ (∀ a b a' b',
          (a, shiftDraw a b) = (a', shiftDraw a' b') → (a, b) = (a', b'))
     ∧ (∀ i j, i < n → j < n → i ≠ j →
          ∃ a b, a < n ∧ b < n - 1 ∧ (a, shiftDraw a b) = (i, j))
     ∧ length (drawPairs n) = n * (n - 1)
     ∧ (∀ i j, i < n → j < n → i ≠ j → length (drawsOf n i j) = 2)).
Proof.
  intros n. split.
  - intros Hn a b. unfold pickTwoDistinct.
    destruct (Nat.ltb_spec (length arr) 2); [done|]. subst n; lia.
  - intros Hn. repeat split.
    + intros a b Ha Hb.
      pose proof (shiftDraw_lt n a b Hb) as Hs.
      destruct (lookup_lt_is_Some_2 arr a Ha) as [x Hx].
      destruct (lookup_lt_is_Some_2 arr (shiftDraw a b) Hs) as [y Hy].
      exists x, y. unfold pickTwoDistinct.
      destruct (Nat.ltb_spec (length arr) 2); [subst n; lia|].
      simpl. rewrite Hx, Hy. repeat split; try done.
      intros Heq. by apply (shiftDraw_ne a b).
    + intros a b a' b' Heq. simplify_eq. f_equal. by eapply shiftDraw_inj.
    + intros i j Hi Hj Hij. exists i, (unshiftDraw i j).
      split; [done|]. split; [apply unshiftDraw_lt; done|].
      by rewrite shiftDraw_unshiftDraw.
    + apply length_drawPairs.
    + intros i j Hi Hj Hij.
      by rewrite (drawsOf_Permutation n i j Hi Hj Hij).
Qed.

Lemma pickTwoDistinct_spec_witness :
  length (drawsOf 3 0 2) = 2
  ∧ pickTwoDistinct (Some [10; 20; 30]) 1 1 = Some (Some 20, Some 30).
Proof.
  destruct (pickTwoDistinct_spec [10; 20; 30]) as [_ H].
  destruct (H ltac:(simpl; lia)) as (H1 & _ & _ & _ & H5).
  split.
  - apply (H5 0 2); simpl; lia.
  - reflexivity.
Defined.

End pairing_spec.

(** ** The pairwise evaluator *)

Section guess_spec.
Import Guess RankOrder.
Local Open Scope Z_scope.

Lemma correctSide_Fin (l r : Z) :
  correctSide (Js.Fin l) (Js.Fin r)
  = if l =? r then "tie" else if l <? r then "left" else "right".
Proof. reflexivity. Qed.

Lemma sideName_inj s1 s2 : sideName s1 = sideName s2 → s1 = s2.
Proof. by destruct s1, s2. Qed.

Lemma sideName_not_tie s : sideName s ≠ "tie".
Proof. by destruct s. Qed.

Lemma correctSide_cases (l r : Js.number) :
  l ≠ Js.NaN → r ≠ Js.NaN →
  (l = r ∧ correctSide l r = "tie")
  ∨ (l ≠ r ∧ below l r ∧ correctSide l r = "left")
  ∨ (l ≠ r ∧ below r l ∧ correctSide l r = "right").
Proof.
  intros Hl Hr.
  destruct l as [| |x|], r as [| |y|]; try done;
    try (by left); try (by right; left); try (by right; right).
  rewrite correctSide_Fin.
  destruct (Z.eqb_spec x y) as [->|Hne]; [by left|].
  destruct (Z.ltb_spec x y); [right; left|right; right];
    (split; [congruence|]); (split; [simpl; lia|done]).
Qed.

(** C3 as stated fails on a rank that is NaN, which is a number for
    [typeof]: with the ranks 5 and NaN the answer is the right side, though
    NaN is not lower than 5, and a guess of the right side raises the
    streak; with two ranks NaN the answer is the right side as well, not a
    tie. *)
Lemma makeGuess_counterexample :
  result (makeGuess "right" (numberState (Js.Fin 5) Js.NaN)) = Some "right"
  ∧ streak (makeGuess "right" (numberState (Js.Fin 5) Js.NaN)) = 7%nat
  ∧ ¬ holdsLower (Js.Fin 5) Js.NaN SideRight
  ∧ Js.lt Js.NaN (Js.Fin 5) = false
  ∧ result (makeGuess "left" (numberState Js.NaN Js.NaN)) = Some "right".
Proof. repeat split; try reflexivity. by intros []. Qed.

(** C3.  With the ranks l (left) and r (right), two numbers other than NaN
    (integers or infinities), [makeGuess] sets the result to tie exactly
    when l = r, and otherwise to the side that holds the strictly lower
    rank.  On a tie the streak, the high-water mark and the recorded last
    streak keep their values; on a guess of the lower side the streak
    grows by one and the high-water mark becomes the larger of its value
    and the new streak; on a guess of the other side the streak before the
    reset is recorded and the streak becomes 0. *)
Theorem makeGuess_spec (st : State) (cl cr : Card) (l r : Js.number) (side : Side) :
  leftMeta st = Some (MetaCard cl (Some l)) →
  rightMeta st = Some (MetaCard cr (Some r)) →
  l ≠ Js.NaN → r ≠ Js.NaN →
  let st' := makeGuess (sideName side) st in
  (result st' = Some "tie" ↔ l = r)
  ∧ (l = r →
     result st' = Some "tie" ∧ streak st' = streak st
     ∧ highestStreak st' = highestStreak st ∧ lastStreak st' = lastStreak st)
  ∧ (l ≠ r →
     ∃ lower,
       holdsLower l r lower
       ∧ result st' = Some (sideName lower)
       ∧ (side = lower →
          streak st' = (streak st + 1)%nat
          ∧ highestStreak st' = Nat.max (highestStreak st) (streak st + 1)
          ∧ lastStreak st' = lastStreak st)
       ∧ (side ≠ lower →
          lastStreak st' = Some (streak st) ∧ streak st' = 0%nat
          ∧ highestStreak st' = highestStreak st)).
Proof.
  intros Hl Hr Hln Hrn st'. subst st'. unfold makeGuess.
  rewrite Hl, Hr. unfold rankOrInfinity. simpl metaRank. cbv beta iota.
  destruct (correctSide_cases l r Hln Hrn)
    as [[Heq ->]|[(Hne & Hlow & ->)|(Hne & Hlow & ->)]].
  - split; [|split; [|done]].
    + destruct side; simpl; done.
    + intros _. destruct side; simpl; done.
  - split; [|split; [done|]].
    + destruct side; simpl; split; intros; simplify_eq.
    + intros _. exists SideLeft. split; [done|]. destruct side; simpl.
      * split; [done|]. split; [|done]. intros _.
        split; [done|]. split; [|done].
        destruct (Nat.ltb_spec (highestStreak st) (streak st + 1)); lia.
      * split; [done|]. split; done.
  - split; [|split; [done|]].
    + destruct side; simpl; split; intros; simplify_eq.
    + intros _. exists SideRight. split; [done|]. destruct side; simpl.
      * split; [done|]. split; done.
      * split; [done|]. split; [|done]. intros _.
        split; [done|]. split; [|done].
        destruct (Nat.ltb_spec (highestStreak st) (streak st + 1)); lia.
Qed.

Lemma makeGuess_spec_witness :
  result (makeGuess "left" (pairState 5 3)) = Some "right"
  ∧ (result (makeGuess "right" (pairState 4 4)) = Some "tie"
     ∧ streak (makeGuess "right" (pairState 4 4)) = 6%nat).
Proof.
  split.
  - pose proof (makeGuess_spec (pairState 5 3) cardA cardB (Js.Fin 5) (Js.Fin 3)
                  SideLeft eq_refl eq_refl ltac:(discriminate) ltac:(discriminate))
      as (_ & _ & H).
    destruct (H ltac:(discriminate)) as (lower & Hlower & Hresult & _).
    destruct lower; [simpl in Hlower; lia|exact Hresult].
  - pose proof (makeGuess_spec (pairState 4 4) cardA cardB (Js.Fin 4) (Js.Fin 4)
                  SideRight eq_refl eq_refl ltac:(discriminate) ltac:(discriminate))
      as (_ & H & _).
    destruct (H eq_refl) as (H1 & H2 & _). split; [exact H1|exact H2].
Defined.

(** C10.  A side whose rank is not a number counts as positive infinity.
    When neither side has a numeric rank the result is a tie and the streak,
    the high-water mark and the recorded last streak keep their values;
    when exactly one side has one, that side is the answer.  This holds for
    every guessed side. *)
Theorem makeGuess_missing_rank (st : State) (ml mr : Meta) (side : Side) :
  leftMeta st = Some ml → rightMeta st = Some mr →
  let st' := makeGuess (sideName side) st in
  (metaRank ml = None → rankOrInfinity ml = Js.PosInf)
  ∧ (metaRank mr = None → rankOrInfinity mr = Js.PosInf)
  ∧ (metaRank ml = None → metaRank mr = None →
     result st' = Some "tie" ∧ streak st' = streak st
     ∧ highestStreak st' = highestStreak st ∧ lastStreak st' = lastStreak st)
  ∧ (∀ z, metaRank ml = Some (Js.Fin z) → metaRank mr = None →
     result st' = Some "left")
  ∧ (∀ z, metaRank ml = None → metaRank mr = Some (Js.Fin z) →
     result st' = Some "right").
Proof.
  intros Hl Hr st'. subst st'. unfold makeGuess. rewrite Hl, Hr.
  unfold rankOrInfinity.
  split; [by intros ->|]. split; [by intros ->|].
  split; [|split].
  - intros -> ->. destruct side; simpl; done.
  - intros z -> ->. destruct side; simpl; done.
  - intros z -> ->. destruct side; simpl; done.
Qed.

Lemma makeGuess_missing_rank_witness :
  result (makeGuess "left" errorState) = Some "tie"
  ∧ streak (makeGuess "left" errorState) = 6%nat.
Proof.
  pose proof (makeGuess_missing_rank errorState _ _ SideLeft eq_refl eq_refl)
    as (_ & _ & H & _).
  destruct (H eq_refl eq_refl) as (H1 & H2 & _). split; [exact H1|exact H2].
Defined.

End guess_spec.

(** ** The daily evaluator *)

Section daily_guess_spec.
Import Daily.
Local Open Scope Z_scope.

Lemma insertRank_Fin x l :
  insertRank (Js.Fin x) (Js.Fin <$> l) = Js.Fin <$> insertZ x l.
Proof.
  induction l as [|y l IH]; [done|].
  rewrite fmap_cons. cbn [insertRank insertZ]. unfold sortCompare.
  cbn [Js.sub Js.lt].
  replace (y - x <? 0) with (y <? x) by (apply eq_true_iff_eq; rewrite !Z.ltb_lt; lia).
  destruct (y <? x); [|done]. by rewrite IH.
Qed.

Lemma sortRanks_Fin l : sortRanks (Js.Fin <$> l) = Js.Fin <$> sortZ l.
Proof.
  induction l as [|x l IH]; [done|].
  unfold sortRanks, sortZ in *. rewrite fmap_cons. cbn [foldr].
  by rewrite IH, insertRank_Fin.
Qed.

Lemma insertZ_Permutation x l : insertZ x l ≡ₚ x :: l.
Proof.
  induction l as [|y l IH]; [done|]. simpl.
  destruct (y <? x); [|done]. rewrite IH. apply perm_swap.
Qed.

Lemma insertZ_Sorted x l : Sorted Z.le l → Sorted Z.le (insertZ x l).
Proof.
  induction l as [|y l IH]; intros Hl; simpl.
  - by repeat constructor.
  - apply Sorted_inv in Hl as [Hl Hhd].
    destruct (Z.ltb_spec y x).
    + constructor; [by apply IH|].
      destruct l as [|z l]; simpl.
      * constructor; lia.
      * apply HdRel_inv in Hhd. destruct (z <? x); constructor; lia.
    + constructor; [by constructor|]. constructor; lia.
Qed.

Lemma sortZ_Permutation l : sortZ l ≡ₚ l.
Proof.
  induction l as [|x l IH]; [done|].
  unfold sortZ in *. simpl. by rewrite insertZ_Permutation, IH.
Qed.

Lemma sortZ_Sorted l : Sorted Z.le (sortZ l).
Proof.
  induction l as [|x l IH]; [constructor|].
  unfold sortZ in *. simpl. by apply insertZ_Sorted.
Qed.

(** The ascending sort of a list of integers is unique, so [sortRanks]
    computes it whatever the sorting method of the host is. *)
Lemma sortZ_unique l sorted :
  Sorted Z.le sorted → sorted ≡ₚ l → sortZ l = sorted.
Proof.
  intros Hs Hp. apply (Sorted_unique Z.le); [apply sortZ_Sorted|done|].
  by rewrite sortZ_Permutation, Hp.
Qed.

Lemma positionsCorrect_Fin zs sorted :
  length zs = length sorted →
  positionsCorrect (Js.Fin <$> zs) (Js.Fin <$> sorted)
  = zip_with Z.eqb zs sorted.
Proof.
  unfold positionsCorrect. revert sorted.
  induction zs as [|z zs IH]; intros [|s sorted] Hlen; simplify_eq/=; [done|].
  f_equal. rewrite <- (IH sorted) by done. apply imap_ext. done.
Qed.

Lemma forallb_zip_eqb zs sorted :
  length zs = length sorted →
  forallb (λ b, b) (zip_with Z.eqb zs sorted) = true ↔ zs = sorted.
Proof.
  revert sorted.
  induction zs as [|z zs IH]; intros [|s sorted] Hlen; simplify_eq/=; [done|].
  rewrite andb_true_iff, Z.eqb_eq, IH by done. split.
  - by intros [-> ->].
  - intros ?; by simplify_eq.
Qed.

(** C4.  For an order whose cards have the integer ranks [zs] (a missing
    rank counts as 9999) and for the ascending sort [sorted] of [zs],
    [handleGuess] sorts the ranks into [sorted], marks the position i
    correct exactly when the i-th rank of the order is the i-th element of
    [sorted], records this vector as the latest guess, and a round that was
    not solved is solved afterwards exactly when every position is
    correct. *)
Theorem handleGuess_spec (st : State) (zs sorted : list Z) :
  getRanks (order st) = Js.Fin <$> zs →
  Sorted Z.le sorted → sorted ≡ₚ zs →
  let st' := handleGuess st in
  sortRanks (getRanks (order st)) = Js.Fin <$> sorted
  ∧ length (correctPositions st') = length zs
  ∧ (∀ i : nat, (i < length zs)%nat →
       (correctPositions st' !! i = Some true ↔ zs !! i = sorted !! i)
       ∧ (correctPositions st' !! i = Some false ↔ zs !! i ≠ sorted !! i))
  ∧ guessHistory st'
    = guessHistory st
        ++ [ {| correctness := correctPositions st'; ids := joinIds (order st) |} ]
  ∧ order st' = order st
  ∧ (isSolved st = false →
     (isSolved st' = true
      ↔ ∀ i : nat, (i < length zs)%nat → correctPositions st' !! i = Some true)).
Proof.
  intros Hranks Hsorted Hperm st'.
  assert (length zs = length sorted) as Hlen by (by rewrite Hperm).
  assert (sortRanks (getRanks (order st)) = Js.Fin <$> sorted) as Hsort.
  { rewrite Hranks, sortRanks_Fin. f_equal. by apply sortZ_unique. }
  assert (correctPositions st' = zip_with Z.eqb zs sorted) as Hcorrect.
  { subst st'. unfold handleGuess. simpl. rewrite Hsort, Hranks.
    by apply positionsCorrect_Fin. }
  assert (∀ i : nat, (i < length zs)%nat →
            ∃ z s, zs !! i = Some z ∧ sorted !! i = Some s
                   ∧ correctPositions st' !! i = Some (z =? s)) as Hat.
  { intros i Hi.
    destruct (lookup_lt_is_Some_2 zs i Hi) as [z Hz].
    destruct (lookup_lt_is_Some_2 sorted i ltac:(lia)) as [s Hs].
    exists z, s. rewrite Hcorrect, lookup_zip_with, Hz, Hs. simpl. auto. }
  split; [done|]. split.
  { rewrite Hcorrect, length_zip_with. lia. }
  split.
  { intros i Hi. destruct (Hat i Hi) as (z & s & -> & -> & ->).
    destruct (Z.eqb_spec z s); split; split; intros; simplify_eq; congruence. }
  split; [done|]. split; [done|].
  intros Hunsolved.
  assert (isSolved st' = forallb (λ b, b) (correctPositions st')) as ->.
  { subst st'. unfold handleGuess. simpl. rewrite Hunsolved.
    by destruct (forallb _ _). }
  rewrite Hcorrect at 1. rewrite forallb_zip_eqb by done. split.
  - intros <- i Hi. destruct (Hat i Hi) as (z & s & Hz & Hs & ->).
    simplify_eq. by rewrite Z.eqb_refl.
  - intros Hall. apply list_eq. intros i.
    destruct (decide (i < length zs)%nat) as [Hi|Hi].
    + destruct (Hat i Hi) as (z & s & Hz & Hs & Hc).
      rewrite Hall in Hc by done. simplify_eq.
      rewrite Hz, Hs. f_equal. apply Z.eqb_eq. done.
    + rewrite !lookup_ge_None_2; [done|lia..].
Qed.

(** The two examples of the specification. *)
Lemma handleGuess_spec_witness :
  (correctPositions
     (handleGuess (roundOf [rankedCard "a" 10; rankedCard "b" 3; rankedCard "c" 7]))
   = [false; false; false]
   ∧ isSolved
       (handleGuess (roundOf [rankedCard "a" 10; rankedCard "b" 3; rankedCard "c" 7]))
     = false)
  ∧ (correctPositions
       (handleGuess (roundOf [rankedCard "b" 3; rankedCard "c" 7; rankedCard "a" 10]))
     = [true; true; true]
     ∧ isSolved
         (handleGuess (roundOf [rankedCard "b" 3; rankedCard "c" 7; rankedCard "a" 10]))
       = true)
  ∧ sortRanks [Js.Fin 10; Js.Fin 3; Js.Fin 7] = [Js.Fin 3; Js.Fin 7; Js.Fin 10].
Proof.
  assert (Sorted Z.le [3; 7; 10]) as Hs by (repeat constructor; lia).
  assert ([3; 7; 10] ≡ₚ [10; 3; 7]) as Hp.
  { change [10; 3; 7] with ([10] ++ [3; 7]). change [3; 7; 10] with ([3; 7] ++ [10]).
    apply Permutation_app_comm. }
  split; [done|]. split; [done|].
  exact (proj1 (handleGuess_spec
                  (roundOf [rankedCard "a" 10; rankedCard "b" 3; rankedCard "c" 7])
                  [10; 3; 7] [3; 7; 10] eq_refl Hs Hp)).
Defined.

End daily_guess_spec.

(** ** The guess button of the daily mode *)

Section daily_disabled_spec.
Import Daily.

Lemma append_comma_inj x x' r r' :
  commaFree x → commaFree x' →
  String.append x (String.append "," r) = String.append x' (String.append "," r') →
  x = x' ∧ r = r'.
Proof.
  revert x'. induction x as [|c x IH]; intros [|c' x']; simpl.
  - intros _ _ H. by simplify_eq.
  - intros _ [Hc _] H. by simplify_eq.
  - intros [Hc _] _ H. by simplify_eq.
  - intros [_ Hx] [_ Hx'] H. simplify_eq.
    destruct (IH x' Hx Hx') as [-> ->]; done.
Qed.

Lemma join_cons2 sep x y l :
  Js.join sep (x :: y :: l)
  = String.append x (String.append sep (Js.join sep (y :: l))).
Proof. reflexivity. Qed.

Lemma join_comma_inj (l1 l2 : list string) :
  length l1 = length l2 →
  Forall commaFree l1 → Forall commaFree l2 →
  Js.join "," l1 = Js.join "," l2 → l1 = l2.
Proof.
  revert l2. induction l1 as [|x l1 IH]; intros [|y l2] Hlen H1 H2 Hj;
    simplify_eq/=; [done|].
  apply Forall_cons in H1 as [Hx H1], H2 as [Hy H2].
  destruct l1 as [|a l1], l2 as [|b l2]; simplify_eq/=; [done|].
  apply append_comma_inj in Hj as [-> Hj]; [|done..].
  f_equal. apply IH; simpl; auto.
Qed.

Lemma joinIds_inj (cards1 cards2 : list Card) :
  length cards1 = length cards2 →
  Forall (λ c, commaFree (card_id c)) cards1 →
  Forall (λ c, commaFree (card_id c)) cards2 →
  joinIds cards1 = joinIds cards2 ↔ card_id <$> cards1 = card_id <$> cards2.
Proof.
  intros Hlen H1 H2. unfold joinIds. split; [|by intros ->].
  apply join_comma_inj.
  - by rewrite !length_fmap.
  - by apply Forall_fmap.
  - by apply Forall_fmap.
Qed.

Lemma guessDisabled_last st g :
  isSolved st = false → last (guessHistory st) = Some g →
  guessDisabled st = String.eqb (ids g) (joinIds (order st)).
Proof.
  intros Hs Hlast. unfold guessDisabled. rewrite Hs.
  rewrite last_lookup, <- Nat.sub_1_r in Hlast. rewrite Hlast.
  by destruct (guessHistory st).
Qed.

(** C9.  In a round with a guess history whose latest entry was recorded
    from the order [prev], the guess button is disabled, while the round is
    not solved, exactly when the ids of the current order, in sequence, are
    those of [prev]; once the round is solved the button is not disabled.
    The ids are free of commas and the round has as many cards as it had at
    the prior guess. *)
Theorem guessDisabled_spec (st : State) (g : Guess) (prev : list Card) :
  last (guessHistory st) = Some g →
  ids g = joinIds prev →
  length prev = length (order st) →
  Forall (λ c, commaFree (card_id c)) prev →
  Forall (λ c, commaFree (card_id c)) (order st) →
  (isSolved st = false →
   (guessDisabled st = true ↔ card_id <$> order st = card_id <$> prev))
  ∧ (isSolved st = true → guessDisabled st = false).
Proof.
  intros Hlast Hids Hlen Hprev Hcur. split.
  - intros Hs. rewrite (guessDisabled_last st g Hs Hlast), Hids.
    rewrite String.eqb_eq. rewrite joinIds_inj by done.
    split; by intros ->.
  - intros Hs. unfold guessDisabled. by rewrite Hs.
Qed.

(** X20.  After a guess that did not solve the round, submitting again is
    refused until the sequence of ids differs from the one just guessed. *)
Lemma guessDisabled_after_guess (st : State) (newOrder : list Card) :
  isSolved (handleGuess st) = false →
  length newOrder = length (order st) →
  Forall (λ c, commaFree (card_id c)) (order st) →
  Forall (λ c, commaFree (card_id c)) newOrder →
  guessDisabled (setOrder newOrder (handleGuess st)) = true
  ↔ card_id <$> newOrder = card_id <$> order st.
Proof.
  intros Hs Hlen Hold Hnew.
  rewrite (guessDisabled_last _ {| correctness := correctPositions (handleGuess st);
                                   ids := joinIds (order st) |}).
  - simpl. rewrite String.eqb_eq. rewrite joinIds_inj by done.
    split; by intros ->.
  - done.
  - simpl. apply last_snoc.
Qed.

Lemma guessDisabled_spec_witness :
  guessDisabled
    (setOrder [rankedCard "a" 10; rankedCard "b" 3; rankedCard "c" 7]
       (handleGuess (roundOf [rankedCard "a" 10; rankedCard "b" 3; rankedCard "c" 7])))
  = true.
Proof.
  pose (cards := [rankedCard "a" 10; rankedCard "b" 3; rankedCard "c" 7]).
  assert (Forall (λ c, commaFree (card_id c)) cards) as Hfree.
  { repeat constructor; simpl; discriminate. }
  refine (proj2 (proj1 (guessDisabled_spec
                          (setOrder cards (handleGuess (roundOf cards)))
                          {| correctness := [false; false; false];
                             ids := joinIds cards |}
                          cards eq_refl eq_refl eq_refl Hfree Hfree)
                   eq_refl) eq_refl).
Defined.

End daily_disabled_spec.

(** ** The commander filter *)

Section filter_spec.
Import Filter.

(** C8 as stated fails: with illegal cards switched off, a card without a
    legalities mapping has no commander legality that is legal, yet the
    filter keeps it. *)
Lemma getFilteredCommanders_counterexample :
  ¬ filtersBy (λ _, None) (excludedAsSpecified (λ _, None))
      [unlistedCard] onlyLegal 0.
Proof.
  intros [H _]. destruct (H unlistedCard) as [H1 _].
  assert (unlistedCard ∈ getFilteredCommanders (λ _, None) [unlistedCard] onlyLegal 0)
    as Hin by (vm_compute; left).
  destruct (H1 Hin) as [_ Hnot]. apply Hnot.
  right. right. split; [done|]. vm_compute. discriminate.
Qed.

Section keep.
Variable parseDate : string → option Z.

Lemma hasPartner_spec card : hasPartner card = true ↔ "Partner" ∈ keywordSet card.
Proof.
  unfold hasPartner, keywordSet. destruct (keywords card) as [ks|]; simpl.
  - apply bool_decide_eq_true.
  - split; [done|]. by intros ?%elem_of_nil.
Qed.

Lemma releasedAfter_spec now card :
  releasedAfter parseDate now card = true ↔ releasedInFuture parseDate now card.
Proof.
  unfold releasedAfter, releasedInFuture.
  destruct (releaseDate parseDate card) as [t|].
  - rewrite Z.ltb_lt. split; [by exists t|]. by intros (? & [= <-] & ?).
  - split; [done|]. by intros (? & ? & _).
Qed.

Lemma notLegal_spec card :
  notLegal card = true
  ↔ is_Some (legalities card) ∧ commanderLegality card ≠ Some "legal".
Proof.
  unfold notLegal, commanderLegality. destruct (legalities card) as [m|]; simpl.
  - rewrite bool_decide_eq_true. split; [by split|by intros [_ ?]].
  - split; [done|]. by intros [[? [=]] _].
Qed.

Lemma keep_spec cfg now card :
  keep parseDate cfg now card = true ↔ ¬ excludedAsCoded parseDate cfg now card.
Proof.
  unfold keep, excludedAsCoded.
  rewrite <- hasPartner_spec, <- releasedAfter_spec, <- notLegal_spec.
  destruct (includePartner cfg), (includeUnreleased cfg), (includeIllegal cfg),
    (hasPartner card), (releasedAfter parseDate now card), (notLegal card);
    simpl; split; try done; try (intros _; intros [[? ?]|[[? ?]|[? ?]]]; done);
    intros H; exfalso; apply H; auto.
Qed.

(** C8, amended.  For every pool, configuration and evaluation time the
    filter returns exactly the cards of the pool that no exclusion condition
    hits, in their original relative order, where the conditions are:
    includePartner is off and the keywords contain Partner; includeUnreleased
    is off and the release date is after the evaluation time; includeIllegal
    is off and the card carries a legalities mapping whose commander entry
    is not exactly legal. *)
Theorem getFilteredCommanders_spec (commanders : list Card) (cfg : Config) (now : Z) :
  filtersBy parseDate (excludedAsCoded parseDate) commanders cfg now.
Proof.
  split.
  - intros card. unfold getFilteredCommanders.
    rewrite list_elem_of_filter, keep_spec. tauto.
  - apply sublist_filter.
Qed.

End keep.
End filter_spec.

(** ** The retry loop of the pairwise mode *)

Section loadNewPair_spec.
Import Pairing.

Section loop_facts.
Variable filtered : list Card.
Variable draws : nat → nat * nat.
Variable resolver : nat → string → Js.completion Js.maybe_number.

(** The loop ends within the attempts that are left, whatever the draws and
    the resolver do, and counts at most 10 attempts. *)
Lemma pairLoop_ends fuel attempts v :
  attempts < 10 → 10 - attempts ≤ fuel →
  pairLoop filtered draws resolver fuel attempts v ≠ Exhausted
  ∧ ∀ k v', pairLoop filtered draws resolver fuel attempts v = Finished k v' →
            attempts < k ≤ 10.
Proof.
  revert attempts v. induction fuel as [|fuel IH]; intros attempts v Hlt Hfuel; [lia|].
  assert (∀ w,
    (if invalidPair w && (attempts + 1 <? 10)
     then pairLoop filtered draws resolver fuel (attempts + 1) w
     else Finished (attempts + 1) w) ≠ Exhausted
    ∧ ∀ k v',
        (if invalidPair w && (attempts + 1 <? 10)
         then pairLoop filtered draws resolver fuel (attempts + 1) w
         else Finished (attempts + 1) w) = Finished k v' → attempts < k ≤ 10) as Hstep.
  { intros w. destruct (Nat.ltb_spec (attempts + 1) 10) as [Hnext|Hlast].
    - destruct (invalidPair w); simpl.
      + destruct (IH (attempts + 1) w Hnext ltac:(lia)) as [H1 H2].
        split; [done|]. intros k v' Hk. pose proof (H2 k v' Hk). lia.
      + split; [done|]. intros k v' [= <- <-]. lia.
    - rewrite andb_false_r. split; [done|]. intros k v' [= <- <-]. lia. }
  cbn [pairLoop].
  destruct (pickTwoDistinct (Some filtered) (draws attempts).1 (draws attempts).2)
    as [[[leftCard|] [rightCard|]]|]; try done.
  destruct (sameName _); [apply Hstep|].
  destruct (resolver attempts (name leftCard)) as [lRank|]; [|done].
  destruct (resolver attempts (name rightCard)) as [rRank|]; [|done].
  apply Hstep.
Qed.

(** When the loop finishes, both cards are set; and if it finishes before
    the tenth attempt, the pair passed the test of the loop. *)
Lemma pairLoop_finished fuel attempts v k v' :
  pairLoop filtered draws resolver fuel attempts v = Finished k v' →
  is_Some (left v') ∧ is_Some (right v') ∧ (k < 10 → invalidPair v' = false).
Proof.
  revert attempts v. induction fuel as [|fuel IH]; intros attempts v; [done|].
  cbn [pairLoop].
  destruct (pickTwoDistinct (Some filtered) (draws attempts).1 (draws attempts).2)
    as [[[leftCard|] [rightCard|]]|]; try done.
  assert (∀ w, is_Some (left w) → is_Some (right w) →
    (if invalidPair w && (attempts + 1 <? 10)
     then pairLoop filtered draws resolver fuel (attempts + 1) w
     else Finished (attempts + 1) w) = Finished k v' →
    is_Some (left v') ∧ is_Some (right v') ∧ (k < 10 → invalidPair v' = false)) as Hstep.
  { intros w Hl Hr. destruct (invalidPair w) eqn:Hw; simpl.
    - destruct (Nat.ltb_spec (attempts + 1) 10); [apply IH|].
      intros [= <- <-]. repeat split; [done..|lia].
    - intros [= <- <-]. done. }
  destruct (sameName _); [apply Hstep; by eexists|].
  destruct (resolver attempts (name leftCard)) as [lRank|]; [|done].
  destruct (resolver attempts (name rightCard)) as [rRank|]; [|done].
  apply Hstep; by eexists.
Qed.

(** X19.  [loadNewPair] always returns, after at most 10 attempts, with both
    sides set to an error or both to a candidate; two candidates have
    different names and ranks that are numbers, which the test [<= 0] of the
    loop let pass when fewer than 10 attempts were made. *)
Lemma loadNewPair_returns :
  ∃ leftMeta rightMeta attempts,
    loadNewPair filtered draws resolver = Some (leftMeta, rightMeta, attempts)
    ∧ attempts ≤ 10
    ∧ ((∃ msg, leftMeta = MetaError msg ∧ rightMeta = MetaError msg
               ∧ msg ∈ [notEnough; failedValid; failedFetch])
       ∨ (∃ l r lRank rRank,
            leftMeta = MetaCard l (Some lRank) ∧ rightMeta = MetaCard r (Some rRank)
            ∧ name l ≠ name r
            ∧ (attempts < 10 →
               Js.le lRank (Js.Fin 0) = false ∧ Js.le rRank (Js.Fin 0) = false))).
Proof.
  unfold loadNewPair, loadNewPairWith.
  destruct (length filtered <? 2).
  { eexists _, _, _. split; [done|]. split; [lia|]. left.
    eexists. repeat split. rewrite !elem_of_cons; auto. }
  destruct (pairLoop_ends 10 0 loopStart ltac:(lia) ltac:(lia)) as [Hne Hk].
  destruct (pairLoop filtered draws resolver 10 0 loopStart) as [| |k v] eqn:Hloop;
    [done| |].
  { eexists _, _, _. split; [done|]. split; [lia|]. left.
    eexists. repeat split. rewrite !elem_of_cons; auto. }
  specialize (Hk k v eq_refl).
  destruct (pairLoop_finished _ _ _ _ _ Hloop) as ([l Hl] & [r Hr] & Hvalid).
  destruct (stillFails v) eqn:Hfails.
  { eexists _, _, _. split; [done|]. split; [lia|]. left.
    eexists. repeat split. rewrite !elem_of_cons; auto. }
  rewrite Hl, Hr. eexists _, _, _. split; [done|]. split; [lia|]. right.
  unfold stillFails, sameName in Hfails. rewrite Hl, Hr in Hfails.
  apply orb_false_elim in Hfails as [Hfails Hname].
  apply orb_false_elim in Hfails as [HlRank HrRank].
  apply negb_false_iff, bool_decide_eq_true in HlRank as [lRank HlRank].
  apply negb_false_iff, bool_decide_eq_true in HrRank as [rRank HrRank].
  exists l, r, lRank, rRank. rewrite HlRank, HrRank.
  split; [done|]. split; [done|]. split.
  { by apply String.eqb_neq. }
  intros Hlt. specialize (Hvalid Hlt). unfold invalidPair in Hvalid.
  apply orb_false_elim in Hvalid as [Hvalid _].
  apply orb_false_elim in Hvalid as [Hlpos Hrpos].
  rewrite HlRank in Hlpos. rewrite HrRank in Hrpos. done.
Qed.

End loop_facts.

(** C5, at an input where the code departs from it.  With a resolver that
    answers the number 0 for each name (as [fetchEdhrecCommanderRank] does
    on a page whose card rank is 0), every one of the 10 attempts fails the
    test of the loop; the check after the loop only asks for numbers, and the
    pair is committed with the ranks 0 where the claim has the error
    state. *)
Theorem loadNewPair_commits_rank_zero :
  loadNewPair [cardA; cardB] (λ _, (0, 0)) rankZero
  = Some (MetaCard cardA (Some (Js.Fin 0)), MetaCard cardB (Some (Js.Fin 0)), 10)
  ∧ loadNewPair [cardA; cardB] (λ _, (0, 0)) (resolveVia zeroPages)
    = Some (MetaCard cardA (Some (Js.Fin 0)), MetaCard cardB (Some (Js.Fin 0)), 10).
Proof. split; vm_compute; reflexivity. Qed.

(** A rank that is NaN passes the test of the loop at the first attempt. *)
Lemma loadNewPair_commits_NaN :
  loadNewPair [cardA; cardB] (λ _, (0, 0)) (λ _ _, Js.Normal (Some Js.NaN))
  = Some (MetaCard cardA (Some Js.NaN), MetaCard cardB (Some Js.NaN), 1).
Proof. vm_compute. reflexivity. Qed.

End loadNewPair_spec.

(** ** The rank resolver *)

Section resolver_spec.
Import Resolver.

Variable normalizeNFD stripDiacritics toLowerCase : string → string.
Variable StringToNumber : string → Js.number.
Variable arrayToString : list Json → string.
Variable encodeURIComponent : string → string.
Variable fetch : string → Response.

Local Abbreviation slugify := (Slug.slugify normalizeNFD stripDiacritics toLowerCase).
Local Abbreviation attempt := (attempt StringToNumber arrayToString fetch).
Local Abbreviation tryUrls := (tryUrls StringToNumber arrayToString fetch).
Local Abbreviation NoRank := (NoRank StringToNumber arrayToString).
Local Abbreviation fetchEdhrecCommanderRank :=
  (fetchEdhrecCommanderRank StringToNumber arrayToString encodeURIComponent
     slugify fetch).

Lemma attempt_NoRank url :
  NoRank (fetch url) → attempt url = Js.Normal None ∨ attempt url = Js.Throw.
Proof.
  unfold Resolver.attempt. intros H. inv H; simpl; auto.
Qed.

(** The loop over the URLs never raises; it requests the URLs in order,
    each at most once, and stops at the first that gives a rank. *)
Lemma tryUrls_returns urls requested :
  ∃ more r, tryUrls urls requested = Js.Normal (requested ++ more, r)
            ∧ more `prefix_of` urls
            ∧ (r = None → more = urls).
Proof.
  revert requested. induction urls as [|url urls IH]; intros requested; simpl.
  - exists [], None. by rewrite app_nil_r.
  - destruct (IH (requested ++ [url])) as (more & r & Heq & Hpre & Hnone).
    assert (∃ more' r',
      tryUrls urls (requested ++ [url]) = Js.Normal (requested ++ more', r')
      ∧ more' `prefix_of` url :: urls ∧ (r' = None → more' = url :: urls)) as Hnext.
    { exists (url :: more), r. rewrite Heq, <- app_assoc. split; [done|].
      split; [by apply prefix_cons|]. intros Hr. by rewrite (Hnone Hr). }
    destruct (attempt url) as [[n|]|]; [|done..].
    exists [url], (Some n). split; [done|]. split; [|done].
    apply prefix_cons, prefix_nil.
Qed.

Lemma tryUrls_NoRank urls requested :
  (∀ url, url ∈ urls → NoRank (fetch url)) →
  tryUrls urls requested = Js.Normal (requested ++ urls, None).
Proof.
  revert requested. induction urls as [|url urls IH]; intros requested Hall; simpl.
  - by rewrite app_nil_r.
  - assert (tryUrls urls (requested ++ [url])
            = Js.Normal (requested ++ url :: urls, None)) as Hnext.
    { rewrite IH, <- app_assoc; [done|]. intros u Hu. apply Hall. by right. }
    destruct (attempt_NoRank url) as [-> | ->]; [apply Hall; by left|done..].
Qed.

(** C7.  [fetchEdhrecCommanderRank] never raises: for every name and every
    behaviour of the network it returns, having requested a prefix of its
    two URLs.  When each of the two URLs fails to give a rank (the request
    is rejected, the status is not OK, the body is malformed, or no known
    shape of the body yields a rank), it returns null after requesting
    exactly the URL of the bare slug and then the URL of the slug with the
    suffix -1, each once. *)
Theorem fetchEdhrecCommanderRank_null (slugOrName : string) :
  let slug := encodeURIComponent (slugify slugOrName) in
  let urls :=
    [ String.append pagesUrl (String.append slug ".json");
      String.append pagesUrl (String.append slug "-1.json") ] in
  (∃ requested r,
      fetchEdhrecCommanderRank slugOrName = Js.Normal (requested, r)
      ∧ requested `prefix_of` urls)
  ∧ ((∀ url, url ∈ urls → NoRank (fetch url)) →
     fetchEdhrecCommanderRank slugOrName = Js.Normal (urls, None)).
Proof.
  intros slug urls. unfold Resolver.fetchEdhrecCommanderRank.
  change (urlsToTry encodeURIComponent slugify slugOrName) with urls.
  split.
  - destruct (tryUrls_returns urls []) as (more & r & Heq & Hpre & _).
    by exists more, r.
  - intros Hall. by rewrite tryUrls_NoRank.
Qed.

End resolver_spec.

Section resolver_examples.
Import Resolver.

Lemma fetchEdhrecCommanderRank_null_witness :
  fetchEdhrecCommanderRank (λ _, Js.NaN) (λ _, EmptyString) (λ s, s)
    (Slug.slugify (λ s, s) (λ s, s) Slug.asciiLowerCase) offline "sol ring"
  = Js.Normal
      ([ "https://json.edhrec.com/pages/commanders/sol-ring.json";
         "https://json.edhrec.com/pages/commanders/sol-ring-1.json" ], None).
Proof.
  refine (proj2 (fetchEdhrecCommanderRank_null (λ s, s) (λ s, s) Slug.asciiLowerCase
                   (λ _, Js.NaN) (λ _, EmptyString) (λ s, s) offline "sol ring") _).
  intros url _. constructor.
Defined.

(** A page with a rank is answered from the first URL. *)
Lemma fetchEdhrecCommanderRank_found :
  fetchEdhrecCommanderRank (λ _, Js.NaN) (λ _, EmptyString) (λ s, s)
    (Slug.slugify (λ s, s) (λ s, s) Slug.asciiLowerCase)
    (λ _, Reply true (Parsed (cardPage (JNum (Js.Fin 42))))) "Sol Ring"
  = Js.Normal ([ "https://json.edhrec.com/pages/commanders/sol-ring.json" ],
               Some (Js.Fin 42)).
Proof. vm_compute. reflexivity. Qed.

(** A page whose card rank is the number 0 resolves to 0. *)
Lemma fetchEdhrecCommanderRank_zero :
  fetchRank zeroPages "Edgar Markov"
  = Js.Normal ([ "https://json.edhrec.com/pages/commanders/edgar-markov.json" ],
               Some (Js.Fin 0)).
Proof. vm_compute. reflexivity. Qed.

End resolver_examples.

(** ** Slugs *)

Section slug_spec.
Import Slug.

Lemma isAlnum_not_hyphen c : isAlnum c = true → isHyphen c = false.
Proof. destruct c as [[] [] [] [] [] [] [] []]; vm_compute; congruence. Qed.

Lemma isAlnum_not_punct c : isAlnum c = true → isPunct c = false.
Proof. destruct c as [[] [] [] [] [] [] [] []]; vm_compute; congruence. Qed.

Lemma isAlnum_lowerAscii c : isAlnum c = true → lowerAscii c = c.
Proof. destruct c as [[] [] [] [] [] [] [] []]; vm_compute; congruence. Qed.

Lemma isHyphen_true c : isHyphen c = true ↔ c = hyphen.
Proof. apply Ascii.eqb_eq. Qed.

Lemma SlugShape_nonempty l : SlugShape l → l ≠ [].
Proof. by destruct 1. Qed.

Lemma SlugShape_chars l :
  SlugShape l → Forall (λ c, isAlnum c = true ∨ c = hyphen) l.
Proof.
  induction 1 as [c Hc|c l Hc Hl IH|c l Hc Hl IH].
  - constructor; [by left|constructor].
  - constructor; [by left|done].
  - constructor; [by left|]. constructor; [by right|done].
Qed.

(** *** The output of the pipeline has the shape *)

Lemma collapseFrom_singleHyphens inRun l :
  singleHyphens inRun (collapseFrom inRun l).
Proof.
  revert inRun. induction l as [|c l IH]; intros inRun; simpl; [done|].
  destruct (isAlnum c) eqn:Hc; simpl; [by left|].
  destruct inRun; simpl; [done|]. right. done.
Qed.

Lemma dropHyphens_singleHyphens afterHyphen l :
  singleHyphens afterHyphen l → singleHyphens true (dropHyphens l).
Proof.
  revert afterHyphen. induction l as [|c l IH]; intros b; simpl; [done|].
  intros [[Hc Hl]|(-> & _ & Hl)].
  - rewrite (isAlnum_not_hyphen c Hc). simpl. by left.
  - simpl. by eapply IH.
Qed.

Lemma dropTrailingHyphens_cons c l :
  dropTrailingHyphens l ≠ [] →
  dropTrailingHyphens (c :: l) = c :: dropTrailingHyphens l.
Proof. simpl. by destruct (dropTrailingHyphens l). Qed.

Lemma dropTrailingHyphens_shape l :
  (singleHyphens true l → l = [] ∨ SlugShape (dropTrailingHyphens l))
  ∧ (∀ c, isAlnum c = true → singleHyphens false l →
          SlugShape (dropTrailingHyphens (c :: l))).
Proof.
  induction l as [|x l [IH1 IH2]].
  - split; [by left|]. intros c Hc _. simpl.
    rewrite (isAlnum_not_hyphen c Hc). by constructor.
  - split.
    + intros [[Hx Hl]|(_ & [=] & _)]. right. by apply IH2.
    + intros c Hc [[Hx Hl]|(-> & _ & Hl)].
      * pose proof (IH2 x Hx Hl) as Hshape.
        rewrite dropTrailingHyphens_cons by by apply SlugShape_nonempty.
        by apply shape_more.
      * destruct (IH1 Hl) as [->|Hshape].
        { simpl. rewrite (isAlnum_not_hyphen c Hc). by constructor. }
        rewrite dropTrailingHyphens_cons.
        2:{ rewrite dropTrailingHyphens_cons by by apply SlugShape_nonempty. done. }
        rewrite dropTrailingHyphens_cons by by apply SlugShape_nonempty.
        by apply shape_hyphen.
Qed.

Lemma trim_collapse_shape l :
  trimHyphens (collapse l) = [] ∨ SlugShape (trimHyphens (collapse l)).
Proof.
  unfold trimHyphens, collapse.
  pose proof (dropHyphens_singleHyphens false _ (collapseFrom_singleHyphens false l)) as H.
  destruct (proj1 (dropTrailingHyphens_shape _) H) as [->|Hs]; [by left|by right].
Qed.

Lemma SlugShape_Matches l : SlugShape l → Matches slugPattern l.
Proof.
  unfold slugPattern. induction 1 as [c Hc|c l Hc Hl IH|c l Hc Hl IH].
  - apply (MSeq _ _ [c] []); [|constructor].
    apply MPlusOne. by constructor.
  - inversion IH as [|r1 r2 l1 l2 H1 H2| | | |]; subst.
    apply (MSeq _ _ (c :: l1) l2); [|done].
    apply (MPlusMore _ [c] l1); [by constructor|done].
  - inversion IH as [|r1 r2 l1 l2 H1 H2| | | |]; subst.
    apply (MSeq _ _ [c] (hyphen :: l1 ++ l2)); [apply MPlusOne; by constructor|].
    apply (MStarMore _ (hyphen :: l1) l2); [|done].
    apply (MSeq _ _ [hyphen] l1); [|done].
    constructor. by apply isHyphen_true.
Qed.

(** *** The pipeline leaves a list of the shape as it is *)

Lemma removePunct_shape l : SlugShape l → removePunct l = l.
Proof.
  intros Hs. unfold removePunct.
  apply SlugShape_chars in Hs. induction Hs as [|c l [Hc| ->] _ IH]; [done|..].
  - simpl. rewrite (isAlnum_not_punct c Hc). simpl. by rewrite IH.
  - simpl. by rewrite IH.
Qed.

Lemma collapseFrom_shape inRun l : SlugShape l → collapseFrom inRun l = l.
Proof.
  intros Hs. revert inRun.
  induction Hs as [c Hc|c l Hc Hl IH|c l Hc Hl IH]; intros inRun; simpl;
    rewrite Hc; [done|by rewrite IH|].
  simpl. by rewrite IH.
Qed.

Lemma dropHyphens_shape l : SlugShape l → dropHyphens l = l.
Proof. destruct 1 as [c Hc|c l Hc _|c l Hc _]; simpl; by rewrite (isAlnum_not_hyphen c Hc). Qed.

Lemma dropTrailingHyphens_fixed l : SlugShape l → dropTrailingHyphens l = l.
Proof.
  induction 1 as [c Hc|c l Hc Hl IH|c l Hc Hl IH].
  - simpl. by rewrite (isAlnum_not_hyphen c Hc).
  - rewrite dropTrailingHyphens_cons; rewrite IH; [done|by apply SlugShape_nonempty].
  - assert (dropTrailingHyphens (hyphen :: l) = hyphen :: l) as Hh.
    { rewrite dropTrailingHyphens_cons; rewrite IH; [done|by apply SlugShape_nonempty]. }
    rewrite dropTrailingHyphens_cons; rewrite Hh; done.
Qed.

Lemma asciiLowerCase_slugChars s : slugChars s → asciiLowerCase s = s.
Proof.
  unfold slugChars, asciiLowerCase. intros H.
  rewrite <- (string_of_list_ascii_of_string s) at 2. f_equal.
  induction H as [|c l [Hc| ->] _ IH]; [done|..]; rewrite fmap_cons, IH; f_equal.
  by apply isAlnum_lowerAscii.
Qed.

Section slugify_facts.
Variable normalizeNFD stripDiacritics toLowerCase : string → string.

Local Abbreviation slugify := (Slug.slugify normalizeNFD stripDiacritics toLowerCase).

(** C6.  The output of [slugify] is the empty string or matches
    [^[a-z0-9]+(-[a-z0-9]+)*$], whatever the input; and [slugify] is
    idempotent, given that the Unicode steps of the host ([normalize],
    the removal of diacritics, [toLowerCase]) leave a string over
    [a-z0-9] and the hyphen as it is. *)
Theorem slugify_spec (x : string) :
  (slugify x = EmptyString
   ∨ Matches slugPattern (list_ascii_of_string (slugify x)))
  ∧ ((∀ s, slugChars s → normalizeNFD s = s) →
     (∀ s, slugChars s → stripDiacritics s = s) →
     (∀ s, slugChars s → toLowerCase s = s) →
     slugify (slugify x) = slugify x).
Proof.
  unfold Slug.slugify.
  set (l := removePunct (list_ascii_of_string
                           (toLowerCase (stripDiacritics (normalizeNFD x))))).
  destruct (trim_collapse_shape l) as [Hnil|Hshape].
  - rewrite Hnil. simpl. split; [by left|]. intros Hn Hd Hl.
    rewrite Hn, Hd, Hl by constructor. reflexivity.
  - split.
    + right. rewrite list_ascii_of_string_of_list_ascii.
      by apply SlugShape_Matches.
    + intros Hn Hd Hl.
      set (out := trimHyphens (collapse l)) in *.
      assert (slugChars (string_of_list_ascii out)) as Hchars.
      { unfold slugChars. rewrite list_ascii_of_string_of_list_ascii.
        by apply SlugShape_chars. }
      rewrite Hn, Hd, Hl by done.
      rewrite list_ascii_of_string_of_list_ascii.
      f_equal. rewrite removePunct_shape by done.
      unfold trimHyphens, collapse. rewrite collapseFrom_shape by done.
      rewrite dropHyphens_shape by done. by apply dropTrailingHyphens_fixed.
Qed.

End slugify_facts.

Lemma slugify_spec_witness :
  Slug.slugify (λ s, s) (λ s, s) asciiLowerCase
    (Slug.slugify (λ s, s) (λ s, s) asciiLowerCase "Lim-Dul's Vault, the (Old) One!")
  = "lim-duls-vault-the-old-one".
Proof.
  refine (proj2 (slugify_spec (λ s, s) (λ s, s) asciiLowerCase
                   "Lim-Dul's Vault, the (Old) One!") _ _ _).
  - intros s _. reflexivity.
  - intros s _. reflexivity.
  - exact asciiLowerCase_slugChars.
Defined.

End slug_spec.

(** ** The UTC date of a time value *)

Section date_facts.
Import JsDate.
Local Open Scope Z_scope.

(** [yearOfDay] is the year the day falls in. *)
Lemma yearOfDay_spec day :
  DayFromYear (yearOfDay day) <= day < DayFromYear (yearOfDay day + 1).
Proof.
  unfold yearOfDay, DayFromYear. split_tests; Z.div_mod_to_equations; lia.
Qed.

Lemma DayFromYear_succ y : DayFromYear (y + 1) = DayFromYear y + DaysInYear y.
Proof.
  unfold DayFromYear, DaysInYear, isLeapYear.
  split_tests; simpl; Z.div_mod_to_equations; lia.
Qed.

Lemma InLeapYear_range t : InLeapYear t = 0 ∨ InLeapYear t = 1.
Proof. unfold InLeapYear. destruct (isLeapYear _); auto. Qed.

Lemma DayWithinYear_range t : 0 <= DayWithinYear t < 365 + InLeapYear t.
Proof.
  unfold DayWithinYear, InLeapYear, YearFromTime.
  pose proof (yearOfDay_spec (Day t)) as H.
  rewrite DayFromYear_succ in H. unfold DaysInYear in H.
  destruct (isLeapYear _); lia.
Qed.

Lemma MonthFromTime_range t : 0 <= MonthFromTime t <= 11.
Proof. unfold MonthFromTime, monthOfDay. split_tests; lia. Qed.

Lemma DateFromTime_range t : 1 <= DateFromTime t <= 31.
Proof.
  unfold DateFromTime, MonthFromTime.
  pose proof (DayWithinYear_range t) as Hd.
  destruct (InLeapYear_range t) as [Hl | Hl]; rewrite Hl in *;
    unfold monthOfDay, monthStart; split_tests; lia.
Qed.

(** The day number is recovered from the three fields, so two time values
    with the same UTC year, month and date lie in the same day. *)
Lemma Day_of_fields t :
  Day t = DayFromYear (YearFromTime t)
          + monthStart (MonthFromTime t)
              (if isLeapYear (YearFromTime t) then 1 else 0)
          + DateFromTime t - 1.
Proof. unfold DateFromTime, DayWithinYear, InLeapYear. lia. Qed.

Lemma fields_of_Day t1 t2 :
  Day t1 = Day t2 →
  YearFromTime t1 = YearFromTime t2 ∧ MonthFromTime t1 = MonthFromTime t2
  ∧ DateFromTime t1 = DateFromTime t2.
Proof.
  intros H. unfold DateFromTime, MonthFromTime, InLeapYear, DayWithinYear, YearFromTime.
  by rewrite H.
Qed.

Lemma Day_of_equal_fields t1 t2 :
  YearFromTime t1 = YearFromTime t2 → MonthFromTime t1 = MonthFromTime t2 →
  DateFromTime t1 = DateFromTime t2 → Day t1 = Day t2.
Proof.
  intros Hy Hm Hd. rewrite (Day_of_fields t1), (Day_of_fields t2).
  by rewrite Hy, Hm, Hd.
Qed.

End date_facts.

(** ** The daily seed and the daily selection *)

Section seed_facts.
Import JsDate Daily.
Local Open Scope Z_scope.

Lemma parseDigits_string_of_uint d acc :
  Js.parseDigits acc (NilEmpty.string_of_uint d) = Some (valueAcc d acc).
Proof.
  revert acc. induction d; intros acc; [done|..];
    cbn [NilEmpty.string_of_uint Js.parseDigits valueAcc];
    match goal with
    | |- context [Js.digitValue ?c] =>
        let v := eval vm_compute in (Js.digitValue c) in
        change (Js.digitValue c) with v
    end; cbv beta iota; apply IHd.
Qed.

Lemma valueAcc_pos d acc :
  valueAcc d (Z.pos acc) = Z.pos (Pos.of_uint_acc d acc).
Proof.
  revert acc. induction d; intros acc; [done|..]; cbn [valueAcc Pos.of_uint_acc];
    rewrite <- IHd; f_equal; lia.
Qed.

Lemma valueAcc_zero d : valueAcc d 0 = Z.of_N (Pos.of_uint d).
Proof.
  induction d; [done|..]; cbn [valueAcc Pos.of_uint];
    rewrite Z.mul_0_l, ?Z.add_0_l; [exact IHd|by rewrite valueAcc_pos..].
Qed.

Lemma parseDigits_to_uint p :
  Js.parseDigits 0 (NilEmpty.string_of_uint (Pos.to_uint p)) = Some (Z.pos p).
Proof.
  rewrite parseDigits_string_of_uint, valueAcc_zero.
  by rewrite DecimalPos.Unsigned.of_to.
Qed.

Lemma string_of_uint_nonnil d :
  d ≠ Decimal.Nil → NilZero.string_of_uint d = NilEmpty.string_of_uint d.
Proof. by destruct d. Qed.

(** A numeral starts with a digit. *)
Lemma string_of_uint_head d :
  d ≠ Decimal.Nil →
  ∃ c s, NilEmpty.string_of_uint d = String c s ∧ Ascii.eqb c "-" = false.
Proof. destruct d; [done|..]; intros _; eexists _, _; split; done. Qed.

Lemma toString_pos p :
  Js.toString (Z.pos p) = NilEmpty.string_of_uint (Pos.to_uint p).
Proof.
  unfold Js.toString. simpl.
  apply string_of_uint_nonnil, DecimalPos.Unsigned.to_uint_nonnil.
Qed.

Lemma toString_neg p : Js.toString (Z.neg p) = String "-" (Js.toString (Z.pos p)).
Proof. reflexivity. Qed.

Lemma parseDigits_app acc s1 s2 :
  Js.parseDigits acc (String.append s1 s2)
  = Js.parseDigits acc s1 ≫= λ a, Js.parseDigits a s2.
Proof.
  revert acc. induction s1 as [|c s1 IH]; intros acc; simpl; [done|].
  destruct (Js.digitValue c); [apply IH|done].
Qed.

Lemma parseDigits_acc acc s :
  Js.parseDigits acc s
  = (λ v, acc * 10 ^ Z.of_nat (String.length s) + v) <$> Js.parseDigits 0 s.
Proof.
  revert acc. induction s as [|c s IH]; intros acc.
  - simpl. f_equal. lia.
  - cbn [Js.parseDigits String.length]. destruct (Js.digitValue c) as [d|]; [|done].
    rewrite (IH (acc * 10 + d)), (IH (0 * 10 + d)).
    destruct (Js.parseDigits 0 s) as [v|]; [|done]. simpl. f_equal.
    rewrite Nat2Z.inj_succ, Z.pow_succ_r by lia. ring.
Qed.

Lemma twoDigits_check :
  forallb (λ n, bool_decide (Js.parseDigits 0 (twoDigits (Z.of_nat n)) = Some (Z.of_nat n)
                             ∧ String.length (twoDigits (Z.of_nat n)) = 2%nat))
          (seq 0 100) = true.
Proof. vm_compute. reflexivity. Qed.

Lemma parseDigits_twoDigits acc k :
  0 <= k < 100 → Js.parseDigits acc (twoDigits k) = Some (acc * 100 + k).
Proof.
  intros Hk. pose proof twoDigits_check as Hall.
  rewrite forallb_forall in Hall.
  specialize (Hall (Z.to_nat k)). rewrite Z2Nat.id in Hall by lia.
  apply bool_decide_eq_true in Hall as [Hv Hlen]; [|apply in_seq; lia].
  rewrite parseDigits_acc, Hv, Hlen. simpl. f_equal.
Qed.

Lemma integerOfString_digits c s rest v :
  Ascii.eqb c "-" = false →
  Js.parseDigits 0 (String.append (String c s) rest) = Some v →
  Js.integerOfString (String.append (String c s) rest) = Js.Fin v.
Proof.
  change (String.append (String c s) rest) with (String c (String.append s rest)).
  intros Hc Hv. unfold Js.integerOfString. by rewrite Hc, Hv.
Qed.

Lemma integerOfString_minus c s rest v :
  Js.parseDigits 0 (String.append (String c s) rest) = Some v →
  Js.integerOfString (String.append (String "-" (String c s)) rest) = Js.Fin (- v).
Proof.
  change (String.append (String "-" (String c s)) rest)
    with (String "-" (String c (String.append s rest))).
  change (String.append (String c s) rest) with (String c (String.append s rest)).
  intros Hv. unfold Js.integerOfString.
  change (Ascii.eqb "-" "-") with true. cbv beta iota. by rewrite Hv.
Qed.

Lemma seed_of_fields y m d :
  0 <= m < 100 → 0 <= d < 100 →
  Js.integerOfString
    (String.append (Js.toString y) (String.append (twoDigits m) (twoDigits d)))
  = Js.Fin (seedValue y m d).
Proof.
  intros Hm Hd. unfold seedValue.
  assert (∀ acc, Js.parseDigits acc (String.append (twoDigits m) (twoDigits d))
                 = Some (acc * 10000 + m * 100 + d)) as Htail.
  { intros acc. rewrite parseDigits_app, parseDigits_twoDigits by done. simpl.
    rewrite parseDigits_twoDigits by done. f_equal. lia. }
  assert (∀ p, Js.parseDigits 0
                 (String.append (NilEmpty.string_of_uint (Pos.to_uint p))
                    (String.append (twoDigits m) (twoDigits d)))
               = Some (Z.pos p * 10000 + m * 100 + d)) as Hall.
  { intros p. rewrite parseDigits_app, parseDigits_to_uint. simpl. apply Htail. }
  destruct y as [|p|p].
  - change (Js.toString 0) with (String "0" EmptyString).
    apply integerOfString_digits; [done|].
    rewrite parseDigits_app. change (Js.parseDigits 0 "0") with (Some 0).
    simpl. apply Htail.
  - rewrite toString_pos. specialize (Hall p).
    destruct (string_of_uint_head (Pos.to_uint p)) as (c & s & Hs & Hc);
      [apply DecimalPos.Unsigned.to_uint_nonnil|].
    rewrite Hs in *. by apply integerOfString_digits.
  - rewrite toString_neg, toString_pos. specialize (Hall p).
    destruct (string_of_uint_head (Pos.to_uint p)) as (c & s & Hs & Hc);
      [apply DecimalPos.Unsigned.to_uint_nonnil|].
    rewrite Hs in *.
    change (0 <=? Z.neg p) with false. cbv iota.
    change (- Z.neg p) with (Z.pos p).
    by apply integerOfString_minus.
Qed.

Lemma seedValue_inj y m d y' m' d' :
  1 <= m <= 12 → 1 <= d <= 31 → 1 <= m' <= 12 → 1 <= d' <= 31 →
  seedValue y m d = seedValue y' m' d' → y = y' ∧ m = m' ∧ d = d'.
Proof.
  unfold seedValue. intros.
  destruct (Z.leb_spec 0 y), (Z.leb_spec 0 y'); lia.
Qed.

(** The seed is the integer YYYYMMDD of the UTC date. *)
Lemma getDailySeed_value now :
  getDailySeed now
  = Js.Fin (seedValue (YearFromTime now) (MonthFromTime now + 1) (DateFromTime now)).
Proof.
  unfold getDailySeed, getUTCFullYear, getUTCMonth, getUTCDate.
  pose proof (MonthFromTime_range now). pose proof (DateFromTime_range now).
  apply seed_of_fields; lia.
Qed.

End seed_facts.

Section daily_selection_spec.
Import JsDate Daily.
Local Open Scope Z_scope.

Lemma getDailySeed_same_day t1 t2 : Day t1 = Day t2 → getDailySeed t1 = getDailySeed t2.
Proof.
  intros H. rewrite !getDailySeed_value.
  by destruct (fields_of_Day t1 t2 H) as (-> & -> & ->).
Qed.

Lemma getDailySeed_other_day t1 t2 : Day t1 ≠ Day t2 → getDailySeed t1 ≠ getDailySeed t2.
Proof.
  intros Hne Heq. apply Hne. rewrite !getDailySeed_value in Heq.
  injection Heq as Heq.
  pose proof (MonthFromTime_range t1). pose proof (DateFromTime_range t1).
  pose proof (MonthFromTime_range t2). pose proof (DateFromTime_range t2).
  apply seedValue_inj in Heq as (Hy & Hm & Hd); [|lia..].
  apply Day_of_equal_fields; [done|lia|done].
Qed.

Section selection.
Variable pool : list Card.
Variable rankOf : string → Js.maybe_number.
Variable seededIndex : Js.number → nat → nat.

(** The loop of the selection ends within the attempts that are left. *)
Lemma pickLoop_ends n maxAttempts seedBase fuel arr result attempts :
  (maxAttempts - attempts ≤ fuel)%nat →
  is_Some (pickLoop rankOf seededIndex n maxAttempts seedBase fuel arr result attempts).
Proof.
  revert arr result attempts.
  induction fuel as [|fuel IH]; intros arr result attempts Hfuel; simpl.
  - destruct (Nat.ltb_spec attempts maxAttempts); [lia|].
    rewrite andb_false_r. by eexists.
  - destruct (_ && _ && _) eqn:Hcond; [|by eexists].
    apply andb_true_iff in Hcond as [_ Hlt]. apply Nat.ltb_lt in Hlt.
    destruct (arr !! _); [|by eexists]. apply IH. lia.
Qed.

(** C1.  The daily seed is an integer that depends on the time value only
    through its UTC calendar day, and differs between two different days,
    the following day among them.  With the pool and the answers of the
    rank resolver fixed, the daily selection ([getDailySeed] and then
    [pickValidRankedCommanders]) returns, and two runs at instants of the
    same UTC day return the same list in the same order. *)
Theorem dailySelection_deterministic (t1 t2 : Z) :
  (∃ seed : Z, getDailySeed t1 = Js.Fin seed)
  ∧ is_Some (dailySelection pool rankOf seededIndex t1)
  ∧ (Day t1 = Day t2 →
     getDailySeed t1 = getDailySeed t2
     ∧ dailySelection pool rankOf seededIndex t1
       = dailySelection pool rankOf seededIndex t2)
  ∧ (Day t2 = Day t1 + 1 → getDailySeed t2 ≠ getDailySeed t1)
  ∧ (Day t1 ≠ Day t2 → getDailySeed t1 ≠ getDailySeed t2).
Proof.
  split; [eexists; apply getDailySeed_value|].
  split; [apply pickLoop_ends; lia|].
  split.
  - intros Hday. pose proof (getDailySeed_same_day t1 t2 Hday) as Hseed.
    split; [done|].
    unfold dailySelection, pickValidRankedCommanders. by rewrite Hseed.
  - split; [|apply getDailySeed_other_day].
    intros Hnext. apply getDailySeed_other_day. lia.
Qed.

End selection.

(** 3 November 2026, at midnight UTC and one millisecond before the next
    midnight; the seed is 20261103, and 20261104 a millisecond later. *)
Lemma dailySelection_deterministic_witness :
  (getDailySeed 1793664000000 = Js.Fin 20261103
   ∧ getDailySeed 1793750399999 = Js.Fin 20261103
   ∧ getDailySeed 1793750400000 = Js.Fin 20261104)
  ∧ getDailySeed 1793664000000 = getDailySeed 1793750399999
  ∧ getDailySeed 1793750400000 ≠ getDailySeed 1793750399999.
Proof.
  split; [by vm_compute|].
  pose proof (dailySelection_deterministic [] (λ _, None) (λ _ _, 0%nat)
                1793664000000 1793750399999) as (_ & _ & Hsame & _).
  pose proof (dailySelection_deterministic [] (λ _, None) (λ _ _, 0%nat)
                1793750399999 1793750400000) as (_ & _ & _ & Hnext & _).
  split.
  - exact (proj1 (Hsame eq_refl)).
  - exact (Hnext eq_refl).
Defined.

(** A run of the selection: with the seed 20261103 the draws take Alpha,
    then Beta, which has no rank and is dropped, then Gamma. *)
Lemma dailySelection_example :
  dailySelection dailyPool dailyRanks seedModulo 1793664000000
  = Some (Js.Normal [withRank (card "Alpha" "a" None) (Js.Fin 5);
                     withRank (card "Gamma" "c" None) (Js.Fin 3)]).
Proof. vm_compute. reflexivity. Qed.

End daily_selection_spec.

(** * Further properties *)

(** ** Drawing and committing a pair *)

Section extra_pairing.
Import Pairing Attempts.

(** X1.  On an array whose elements have pairwise different keys (the names
    of the cards, say), the two elements [pickTwoDistinct] returns are
    elements of the array with different keys. *)
Theorem pickTwoDistinct_distinct_keys {A B : Type} (f : A → B) (arr : list A)
    (a b : nat) (x y : A) :
  NoDup (f <$> arr) →
  pickTwoDistinct (Some arr) a b = Some (Some x, Some y) →
  f x ≠ f y ∧ x ∈ arr ∧ y ∈ arr.
Proof.
  intros Hnd. unfold pickTwoDistinct.
  destruct (length arr <? 2); [done|]. intros [= Hx Hy].
  split; [|split; eapply list_elem_of_lookup_2; eauto].
  intros Heq.
  assert ((f <$> arr) !! a = Some (f x)) as Ha by (by rewrite list_lookup_fmap, Hx).
  assert ((f <$> arr) !! shiftDraw a b = Some (f x)) as Hb
    by (by rewrite list_lookup_fmap, Hy, Heq).
  pose proof (NoDup_lookup _ _ _ _ Hnd Ha Hb) as Hab.
  by apply (shiftDraw_ne a b).
Qed.

Lemma pickTwoDistinct_distinct_keys_witness :
  name cardB ≠ name cardA.
Proof.
  refine (proj1 (pickTwoDistinct_distinct_keys name [cardA; cardB] 1 0 cardB cardA _ eq_refl)).
  repeat constructor; rewrite ?elem_of_cons, ?elem_of_nil; simpl; intuition discriminate.
Defined.

Section retry.
Variable filtered : list Card.
Variable draws : nat → nat * nat.
Variable resolver : nat → string → Js.completion Js.maybe_number.

Local Abbreviation pairLoop := (pairLoop filtered draws resolver).
Local Abbreviation Rejected := (Rejected filtered draws resolver).

(** A rejected attempt before the tenth sends the loop to the next one. *)
Lemma pairLoop_rejected fuel i v :
  i + 1 < 10 → Rejected i →
  ∃ v', pairLoop (S fuel) i v = pairLoop fuel (i + 1) v'.
Proof.
  intros Hi Hrej. cbn [Pairing.pairLoop].
  assert ((i + 1 <? 10) = true) as Hlt by (apply Nat.ltb_lt; lia).
  destruct Hrej as [l r Hdraw Hname|l r lRank rRank Hdraw Hname Hl Hr Hbad];
    unfold drawnPair in Hdraw; rewrite Hdraw.
  - assert (String.eqb (name l) (name r) = true) as Hsame by (by apply String.eqb_eq).
    unfold sameName at 1. cbn [left right]. rewrite Hsame.
    unfold invalidPair, sameName. cbn [left right]. rewrite Hsame, orb_true_r, Hlt.
    simpl. by eexists.
  - assert (String.eqb (name l) (name r) = false) as Hdiff by (by apply String.eqb_neq).
    unfold sameName at 1. cbn [left right]. rewrite Hdiff, Hl, Hr.
    unfold invalidPair. cbn [leftRank rightRank].
    assert (notPositive lRank || notPositive rRank = true) as ->
      by (destruct Hbad as [-> | ->]; [done|apply orb_true_r]).
    rewrite Hlt. simpl. by eexists.
Qed.

Lemma pairLoop_skip n : ∀ fuel i v,
  i + n < 10 → (∀ j, i ≤ j < i + n → Rejected j) →
  ∃ v', pairLoop (n + fuel) i v = pairLoop fuel (i + n) v'.
Proof.
  induction n as [|n IH]; intros fuel i v Hi Hrej.
  - exists v. by rewrite Nat.add_0_r.
  - destruct (pairLoop_rejected (n + fuel) i v) as [v1 Hv1]; [lia|apply Hrej; lia|].
    destruct (IH fuel (i + 1) v1) as [v2 Hv2]; [lia|intros j Hj; apply Hrej; lia|].
    exists v2. cbn [Nat.add]. rewrite Hv1, Hv2. f_equal. lia.
Qed.

(** X2.  [loadNewPair] commits the first attempt that passes: when the
    attempts before the attempt k < 10 are rejected by the test of the loop,
    and the attempt k draws two cards with different names whose ranks are
    numbers that the test [<= 0] lets pass, both sides are set to these
    cards with these ranks, after k + 1 attempts. *)
Theorem loadNewPair_first_valid (k : nat) (l r : Card) (lRank rRank : Js.number) :
  k < 10 →
  (∀ i, i < k → Rejected i) →
  drawnPair filtered draws k = Some (Some l, Some r) →
  name l ≠ name r →
  resolver k (name l) = Js.Normal (Some lRank) →
  resolver k (name r) = Js.Normal (Some rRank) →
  Js.le lRank (Js.Fin 0) = false → Js.le rRank (Js.Fin 0) = false →
  loadNewPair filtered draws resolver
  = Some (MetaCard l (Some lRank), MetaCard r (Some rRank), k + 1).
Proof.
  intros Hk Hrej Hdraw Hname Hl Hr Hlpos Hrpos.
  unfold loadNewPair, loadNewPairWith.
  assert ((length filtered <? 2) = false) as ->.
  { unfold drawnPair, pickTwoDistinct in Hdraw. by destruct (length filtered <? 2). }
  destruct (pairLoop_skip k (10 - k) 0 loopStart) as [v Hv];
    [lia|intros j Hj; apply Hrej; lia|].
  replace (k + (10 - k)) with 10 in Hv by lia. rewrite Hv. simpl (0 + k).
  destruct (10 - k) as [|fuel] eqn:Hfuel; [lia|]. cbn [Pairing.pairLoop].
  unfold drawnPair in Hdraw. rewrite Hdraw.
  assert (String.eqb (name l) (name r) = false) as Hdiff by (by apply String.eqb_neq).
  unfold sameName at 1. cbn [left right]. rewrite Hdiff, Hl, Hr.
  unfold invalidPair, sameName. cbn [left right leftRank rightRank notPositive].
  rewrite Hlpos, Hrpos, Hdiff. simpl.
  unfold stillFails, sameName. cbn [left right leftRank rightRank].
  rewrite Hdiff. simpl. done.
Qed.

(** X3.  After nine rejected attempts, a tenth attempt whose names are equal
    or one of whose ranks is not a number ends [loadNewPair] with both sides
    set to the error that no valid commander was fetched, after exactly 10
    attempts. *)
Theorem loadNewPair_exhausted :
  (∀ i, i < 9 → Rejected i) →
  Unresolved filtered draws resolver 9 →
  loadNewPair filtered draws resolver
  = Some (MetaError failedValid, MetaError failedValid, 10).
Proof.
  intros Hrej Hlast. unfold loadNewPair, loadNewPairWith.
  assert ((length filtered <? 2) = false) as ->.
  { destruct Hlast as [l r Hdraw _|l r ? ? Hdraw _ _ _ _];
      unfold drawnPair, pickTwoDistinct in Hdraw; by destruct (length filtered <? 2). }
  destruct (pairLoop_skip 9 1 0 loopStart) as [v Hv];
    [lia|intros j Hj; apply Hrej; lia|].
  change (9 + 1) with 10 in Hv. rewrite Hv. simpl (0 + 9). cbn [Pairing.pairLoop].
  destruct Hlast as [l r Hdraw Hname|l r lRank rRank Hdraw Hname Hl Hr Hbad];
    unfold drawnPair in Hdraw; rewrite Hdraw.
  - assert (String.eqb (name l) (name r) = true) as Hsame by (by apply String.eqb_eq).
    unfold sameName at 1. cbn [left right]. rewrite Hsame.
    change (9 + 1 <? 10) with false. rewrite andb_false_r.
    unfold stillFails, sameName. cbn [left right]. rewrite Hsame, orb_true_r. done.
  - assert (String.eqb (name l) (name r) = false) as Hdiff by (by apply String.eqb_neq).
    unfold sameName at 1. cbn [left right]. rewrite Hdiff, Hl, Hr.
    change (9 + 1 <? 10) with false. rewrite andb_false_r.
    unfold stillFails. cbn [leftRank rightRank].
    destruct Hbad as [-> | ->]; simpl; [done|]. by rewrite orb_true_r.
Qed.

End retry.

Lemma loadNewPair_first_valid_witness :
  loadNewPair [cardA; cardB] (λ _, (0, 0))
    (λ i _, Js.Normal (if i <? 2 then None else Some (Js.Fin 7)))
  = Some (MetaCard cardA (Some (Js.Fin 7)), MetaCard cardB (Some (Js.Fin 7)), 3).
Proof.
  refine (loadNewPair_first_valid [cardA; cardB] (λ _, (0, 0))
            (λ i _, Js.Normal (if i <? 2 then None else Some (Js.Fin 7)))
            2 cardA cardB (Js.Fin 7) (Js.Fin 7) _ _ eq_refl _ eq_refl eq_refl eq_refl eq_refl).
  - lia.
  - intros i Hi. eapply (rejected_rank _ _ _ i cardA cardB None None);
      [reflexivity|discriminate| | |by left].
    + destruct i as [|[|i]]; [reflexivity..|lia].
    + destruct i as [|[|i]]; [reflexivity..|lia].
  - discriminate.
Defined.

Lemma loadNewPair_exhausted_witness :
  loadNewPair [cardA; cardB] (λ _, (0, 0)) (λ _ _, Js.Normal None)
  = Some (MetaError failedValid, MetaError failedValid, 10).
Proof.
  refine (loadNewPair_exhausted [cardA; cardB] (λ _, (0, 0)) (λ _ _, Js.Normal None) _ _).
  - intros i _. eapply (rejected_rank _ _ _ i cardA cardB None None);
      [reflexivity|discriminate|reflexivity|reflexivity|by left].
  - eapply (unresolved_rank _ _ _ 9 cardA cardB None None);
      [reflexivity|discriminate|reflexivity|reflexivity|by left].
Defined.

End extra_pairing.

(** ** The streak and the high-water mark *)

Section extra_guess.
Import Guess.

(** X4.  [makeGuess] keeps the streak at or below the high-water mark and
    never lowers the mark, whatever the side and the ranks are; the streak
    grows by one, stays, or is reset to 0 with its old value recorded; the
    two candidates are left as they are. *)
Theorem makeGuess_high_water (side : string) (st : State) :
  streak st ≤ highestStreak st →
  streak (makeGuess side st) ≤ highestStreak (makeGuess side st)
  ∧ highestStreak st ≤ highestStreak (makeGuess side st)
  ∧ (streak (makeGuess side st) = streak st + 1
     ∨ (streak (makeGuess side st) = streak st
        ∧ lastStreak (makeGuess side st) = lastStreak st)
     ∨ (streak (makeGuess side st) = 0
        ∧ lastStreak (makeGuess side st) = Some (streak st)))
  ∧ leftMeta (makeGuess side st) = leftMeta st
  ∧ rightMeta (makeGuess side st) = rightMeta st.
Proof.
  intros Hinv. unfold makeGuess.
  destruct (leftMeta st) as [l|] eqn:Hl, (rightMeta st) as [r|] eqn:Hr;
    try (rewrite ?Hl, ?Hr; repeat split; auto; lia).
  destruct (String.eqb _ side); simpl.
  - destruct (Nat.ltb_spec (highestStreak st) (streak st + 1));
      repeat split; auto; lia.
  - destruct (String.eqb _ "tie"); simpl; repeat split; auto; lia.
Qed.

Lemma makeGuess_high_water_witness :
  streak (makeGuess "left" (pairState 3 5)) ≤ highestStreak (makeGuess "left" (pairState 3 5)).
Proof.
  refine (proj1 (makeGuess_high_water "left" (pairState 3 5) _)). simpl. lia.
Defined.

End extra_guess.

(** ** A solved round is a sorted round *)

Section extra_solved.
Import Daily.
Local Open Scope Z_scope.

(** X5.  After [handleGuess], a round that was not solved is solved exactly
    when the ranks of the order, from left to right, are in ascending
    order; cards of equal rank may stand in any order. *)
Theorem handleGuess_solved_iff_sorted (st : State) (zs : list Z) :
  getRanks (order st) = Js.Fin <$> zs →
  isSolved st = false →
  isSolved (handleGuess st) = true ↔ Sorted Z.le zs.
Proof.
  intros Hranks Hunsolved. unfold handleGuess. simpl. rewrite Hunsolved.
  rewrite Hranks, sortRanks_Fin.
  assert (length zs = length (sortZ zs)) as Hlen by (by rewrite sortZ_Permutation).
  rewrite positionsCorrect_Fin by done.
  assert ((if forallb (λ b, b) (zip_with Z.eqb zs (sortZ zs)) then true else false) = true
          ↔ zs = sortZ zs) as ->.
  { rewrite <- forallb_zip_eqb by done. by destruct (forallb _ _). }
  split.
  - intros ->. apply sortZ_Sorted.
  - intros Hs. symmetry. by apply sortZ_unique.
Qed.

Lemma handleGuess_solved_iff_sorted_witness :
  isSolved (handleGuess (roundOf [rankedCard "b" 3; rankedCard "d" 3; rankedCard "a" 10]))
  = true.
Proof.
  refine (proj2 (handleGuess_solved_iff_sorted
                   (roundOf [rankedCard "b" 3; rankedCard "d" 3; rankedCard "a" 10])
                   [3; 3; 10] eq_refl eq_refl) _).
  repeat constructor; lia.
Defined.

End extra_solved.

(** ** The filter and its toggles *)

Section extra_filter.
Import Filter FilterOrder.
Variable parseDate : string → option Z.

Local Abbreviation keep := (keep parseDate).
Local Abbreviation getFilteredCommanders := (getFilteredCommanders parseDate).

Lemma keep_relaxes cfg cfg' (now now' : Z) card :
  relaxes cfg cfg' → (now ≤ now')%Z →
  keep cfg now card = true → keep cfg' now' card = true.
Proof.
  intros (Hp & Hu & Hi) Hnow. unfold Filter.keep, releasedAfter.
  destruct (releaseDate parseDate card) as [t|].
  - destruct (Z.ltb_spec now t), (Z.ltb_spec now' t); try lia;
      destruct (includePartner cfg), (includeUnreleased cfg), (includeIllegal cfg),
        (hasPartner card), (notLegal card); simpl; try done;
      rewrite ?Hp, ?Hu, ?Hi by done; simpl; try done;
      destruct (includePartner cfg'), (includeUnreleased cfg'), (includeIllegal cfg');
      simpl; done.
  - destruct (includePartner cfg), (includeUnreleased cfg), (includeIllegal cfg),
      (hasPartner card), (notLegal card); simpl; try done;
      rewrite ?Hp, ?Hu, ?Hi by done; simpl; try done;
      destruct (includePartner cfg'), (includeUnreleased cfg'), (includeIllegal cfg');
      simpl; done.
Qed.

(** X6.  Switching toggles on and letting time pass only adds cards: the
    pool filtered under a configuration at some time is a subsequence of
    the pool filtered under a configuration that has at least the same
    toggles on, at the same or a later time. *)
Theorem getFilteredCommanders_monotone (commanders : list Card)
    (cfg cfg' : Config) (now now' : Z) :
  relaxes cfg cfg' → (now ≤ now')%Z →
  getFilteredCommanders commanders cfg now
    `sublist_of` getFilteredCommanders commanders cfg' now'.
Proof.
  intros Hcfg Hnow. unfold Filter.getFilteredCommanders.
  induction commanders as [|card cs IH]; [done|].
  rewrite !filter_cons.
  destruct (decide (keep cfg now card = true)) as [Hk|Hk].
  - rewrite decide_True by (by eapply keep_relaxes). by apply sublist_skip.
  - destruct (decide (keep cfg' now' card = true)); [by apply sublist_cons|done].
Qed.

(** X7.  With the three toggles on the filter returns the whole pool, and
    filtering a filtered pool again, under the same configuration and at
    the same time, changes nothing. *)
Theorem getFilteredCommanders_fixed (commanders : list Card) (cfg : Config) (now : Z) :
  getFilteredCommanders commanders allOn now = commanders
  ∧ getFilteredCommanders (getFilteredCommanders commanders cfg now) cfg now
    = getFilteredCommanders commanders cfg now.
Proof.
  unfold Filter.getFilteredCommanders. split.
  - induction commanders as [|card cs IH]; [done|].
    rewrite filter_cons, decide_True by done. by rewrite IH.
  - induction commanders as [|card cs IH]; [done|].
    rewrite filter_cons.
    destruct (decide (keep cfg now card = true)) as [Hk|Hk]; [|done].
    rewrite filter_cons, decide_True by done. by rewrite IH.
Qed.

End extra_filter.

Lemma getFilteredCommanders_monotone_witness :
  Filter.getFilteredCommanders (λ _, None) [unlistedCard; cardA] onlyLegal 0
    `sublist_of`
  Filter.getFilteredCommanders (λ _, None) [unlistedCard; cardA] FilterOrder.allOn 5.
Proof.
  apply (getFilteredCommanders_monotone (λ _, None) [unlistedCard; cardA]
           onlyLegal FilterOrder.allOn 0 5).
  - repeat split; intros; reflexivity.
  - lia.
Defined.

(** ** Reading a rank out of a page *)

Section extra_resolver.
Import Resolver Bodies.

Variable StringToNumber : string → Js.number.
Variable arrayToString : list Json → string.
Variable fetch : string → Response.

Local Abbreviation getLatestCommanderRank := (getLatestCommanderRank StringToNumber).
Local Abbreviation extractRank := (extractRank StringToNumber arrayToString).
Local Abbreviation firstItemRank := (firstItemRank StringToNumber arrayToString).
Local Abbreviation attempt := (attempt StringToNumber arrayToString fetch).
Local Abbreviation tryUrls := (tryUrls StringToNumber arrayToString fetch).
Local Abbreviation NoRank := (NoRank StringToNumber arrayToString).
Local Abbreviation returnNumber := (returnNumber StringToNumber arrayToString).

Lemma get_not_null j key : j ≠ JNull → ∃ v, get j key = Js.Normal v.
Proof. destruct j; try done; intros _; by eexists. Qed.

Lemma isObject_not_null v : isObject v = true → ∃ j, v = Some j ∧ j ≠ JNull.
Proof. destruct v as [[]|]; try done; intros _; by eexists. Qed.

Lemma truthy_not_null v : truthy v = true → ∃ j, v = Some j ∧ j ≠ JNull.
Proof. destruct v as [[]|]; try done; intros _; by eexists. Qed.

Lemma prop_object v key : isObject v = true → ∃ w, prop v key = Js.Normal w.
Proof.
  intros (j & -> & Hj)%isObject_not_null. by apply get_not_null.
Qed.

Lemma getLatestCommanderRank_returns json :
  ∃ r, getLatestCommanderRank json = Js.Normal r.
Proof.
  unfold Resolver.getLatestCommanderRank.
  destruct (isObject (Some json)) eqn:Hj; simpl; [|by eexists].
  destruct (prop_object (Some json) "container" Hj) as [container Hc].
  simpl in Hc. rewrite Hc. simpl.
  destruct (isObject container) eqn:Hcont; simpl; [|by eexists].
  destruct (prop_object container "json_dict" Hcont) as [jsonDict Hd].
  rewrite Hd. simpl.
  destruct (isObject jsonDict) eqn:Hdict; simpl; [|by eexists].
  destruct (prop_object jsonDict "card" Hdict) as [card Hcard].
  rewrite Hcard. simpl.
  destruct (isObject card) eqn:Hobj; simpl; [|by eexists].
  destruct (prop_object card "rank" Hobj) as [r Hr].
  rewrite Hr. simpl. destruct r as [[]|]; by eexists.
Qed.

Lemma nestedRank_returns j section :
  j ≠ JNull → ∃ v, nestedRank j section = Js.Normal v.
Proof.
  intros Hj. unfold nestedRank.
  destruct (get_not_null j section Hj) as [s ->]. simpl.
  destruct (truthy s) eqn:Hs; [|by eexists].
  destruct (truthy_not_null s Hs) as (x & -> & Hx). by apply get_not_null.
Qed.

Lemma itemRank_returns it : it ≠ JNull → ∃ v, itemRank it = Js.Normal v.
Proof.
  intros Hit. unfold itemRank.
  destruct (get_not_null it "rank" Hit) as [r ->]. simpl.
  destruct (truthy r); [by eexists|].
  destruct (get_not_null it "stats" Hit) as [stats ->]. simpl.
  destruct stats as [s|]; [|by eexists].
  destruct s; try (by eexists); by apply get_not_null.
Qed.

Lemma Json_nested_ind (P : Json → Prop) :
  P JNull → (∀ b, P (JBool b)) → (∀ n, P (JNum n)) → (∀ s, P (JStr s)) →
  (∀ items, Forall P items → P (JArr items)) →
  (∀ members, Forall (λ kv, P kv.2) members → P (JObj members)) →
  ∀ v, P v.
Proof.
  intros Hnull Hbool Hnum Hstr Harr Hobj. fix IH 1.
  intros [|b|n|s|items|members]; [done..| |].
  - apply Harr. induction items as [|it items IHitems]; constructor; [apply IH|done].
  - apply Hobj. induction members as [|[k w] members IHmembers]; constructor;
      [apply IH|done].
Qed.

Lemma toPrimitiveRaises_hasToString v :
  toPrimitiveRaises v = true → hasToString v = true.
Proof.
  induction v as [| | | |items IH|members _] using Json_nested_ind; try done.
  - simpl. induction IH as [|it items Hit _ IHitems]; [done|]. simpl.
    intros [H|H]%orb_true_iff; apply orb_true_iff; auto.
  - simpl. by destruct (member "toString" members).
Qed.

Lemma member_hasToString key members v :
  member key members = Some v → hasToString v = true →
  existsb (λ kv, let '(_, w) := kv in hasToString w) members = true.
Proof.
  intros Hm Hv. induction members as [|[k w] members IH]; [done|].
  simpl in *. apply orb_true_iff.
  destruct (String.eqb k key); [left; by simplify_eq|right; by apply IH].
Qed.

Lemma get_hasToString j key v :
  get j key = Js.Normal (Some v) → hasToString v = true → hasToString j = true.
Proof.
  destruct j as [| | | | |members]; try done. simpl. intros [= Hm] Hv.
  apply orb_true_iff. right. by apply member_hasToString with key v.
Qed.

Lemma returnNumber_raises r :
  returnNumber r = Js.Throw → ∃ v, r = Some v ∧ hasToString v = true.
Proof.
  unfold Resolver.returnNumber, Resolver.toNumber.
  destruct r as [[| | | |items|members]|]; try done.
  - destruct (toPrimitiveRaises (JArr items)) eqn:Hraise; [|done].
    intros _. eexists. split; [done|]. by apply toPrimitiveRaises_hasToString.
  - destruct (toPrimitiveRaises (JObj members)) eqn:Hraise; [|done].
    intros _. eexists. split; [done|]. by apply toPrimitiveRaises_hasToString.
Qed.

Lemma nestedRank_hasToString j section v :
  nestedRank j section = Js.Normal (Some v) → hasToString v = true →
  hasToString j = true.
Proof.
  unfold nestedRank. destruct (get j section) as [s|] eqn:Hs; [|done]. simpl.
  destruct (truthy s); [|done]. destruct s as [s|]; [|done]. simpl.
  intros Hv Hkey. apply (get_hasToString j section s Hs).
  by apply (get_hasToString s "rank" v).
Qed.

Lemma itemRank_hasToString it v :
  itemRank it = Js.Normal (Some v) → hasToString v = true →
  hasToString it = true.
Proof.
  unfold itemRank. destruct (get it "rank") as [r|] eqn:Hr; [|done]. simpl.
  destruct (truthy r).
  { intros [= ->]. by apply get_hasToString with "rank". }
  destruct (get it "stats") as [stats|] eqn:Hstats; [|done]. simpl.
  destruct stats as [s|]; [|done].
  assert (s = JNull ∨ s ≠ JNull) as [->|Hs] by (destruct s; auto); [done|].
  assert (get s "rank" = Js.Normal (Some v) → hasToString v = true →
          hasToString it = true) as Hdeep.
  { intros Hv Hkey. apply (get_hasToString it "stats" s Hstats).
    by apply (get_hasToString s "rank" v). }
  by destruct s.
Qed.

Lemma firstItemRank_raises items :
  firstItemRank items = Js.Throw → existsb hasToString items = true.
Proof.
  induction items as [|it rest IH]; [done|].
  cbn [Resolver.firstItemRank existsb]. intros Hraise. apply orb_true_iff.
  destruct (isObject (Some it)) eqn:Hit; [|right; by apply IH].
  destruct (isObject_not_null _ Hit) as (j & [= <-] & Hj).
  destruct (itemRank_returns it Hj) as [r Hr]. rewrite Hr in Hraise.
  simpl in Hraise. destruct (truthy r); [|right; by apply IH].
  apply returnNumber_raises in Hraise as (v & -> & Hv).
  left. by apply itemRank_hasToString with v.
Qed.

(** X8.  [getLatestCommanderRank] raises on no JSON value.  The statements
    that read a rank out of a parsed body raise on the body null; on any
    other body they raise only in a call of [Number], which needs an
    object with a member [toString] of its own somewhere in the body; and
    they do raise on an object without a container whose rank is an object
    with such a member. *)
Theorem extractRank_raises (j : Json) :
  (∃ r, getLatestCommanderRank j = Js.Normal r)
  ∧ extractRank JNull = Js.Throw
  ∧ (extractRank j = Js.Throw → j = JNull ∨ hasToString j = true)
  ∧ (∀ members converted,
       j = JObj members →
       member "container" members = None →
       member "rank" members = Some (JObj converted) →
       is_Some (member "toString" converted) →
       extractRank j = Js.Throw).
Proof.
  split; [apply getLatestCommanderRank_returns|]. split; [done|]. split.
  - intros Hthrow.
    assert (j = JNull ∨ j ≠ JNull) as [|Hj] by (destruct j; auto); [by left|].
    right. revert Hthrow. unfold Resolver.extractRank.
    destruct (getLatestCommanderRank_returns j) as [latest ->]. simpl.
    destruct latest; [done|].
    destruct (get_not_null j "rank" Hj) as [r Hr]. rewrite Hr. simpl.
    destruct (truthy r).
    { intros (v & -> & Hv)%returnNumber_raises.
      by apply (get_hasToString j "rank" v). }
    destruct (nestedRank_returns j "stats" Hj) as [s Hs]. rewrite Hs. simpl.
    destruct (truthy s).
    { intros (v & -> & Hv)%returnNumber_raises.
      by apply (nestedRank_hasToString j "stats" v). }
    destruct (nestedRank_returns j "meta" Hj) as [m Hm]. rewrite Hm. simpl.
    destruct (truthy m).
    { intros (v & -> & Hv)%returnNumber_raises.
      by apply (nestedRank_hasToString j "meta" v). }
    destruct (get_not_null j "items" Hj) as [items Hi]. rewrite Hi. simpl.
    destruct items as [[| | | |items|]|]; try done.
    intros Hraise%firstItemRank_raises.
    by apply (get_hasToString j "items" (JArr items)).
  - intros members converted -> Hcontainer Hrank [w Hw].
    unfold Resolver.extractRank, Resolver.getLatestCommanderRank. simpl.
    rewrite Hcontainer. simpl. rewrite Hrank. simpl.
    unfold Resolver.returnNumber. simpl. by rewrite Hw.
Qed.

Lemma attempt_rank_or_NoRank url :
  (∃ n, attempt url = Js.Normal (Some n)) ∨ NoRank (fetch url).
Proof.
  unfold Resolver.attempt. destruct (fetch url) as [|[] [|j]]; simpl;
    try (right; constructor; fail).
  destruct (Resolver.extractRank StringToNumber arrayToString j) as [[n|]|] eqn:He.
  - left. by eexists.
  - right. by constructor.
  - right. by apply NoRank_raises.
Qed.

Lemma NoRank_attempt url n : NoRank (fetch url) → attempt url ≠ Js.Normal (Some n).
Proof.
  unfold Resolver.attempt. intros H.
  destruct (fetch url) as [|ok body]; [done|].
  inversion H as [| | |j Hj|j Hj]; subst; simpl; try done; by rewrite Hj.
Qed.

(** X9.  The loop over the candidate URLs stops at the first URL that gives
    a rank and returns that rank: the URLs it requested are the URLs up to
    and including that one, each of the earlier ones failed to give a rank,
    and no later URL is requested.  It returns null only after requesting
    every URL, each of which failed. *)
Theorem tryUrls_first_rank (urls requested : list string) (r : Js.maybe_number) :
  tryUrls urls [] = Js.Normal (requested, r) →
  match r with
  | Some n =>
      ∃ failed url rest,
        urls = failed ++ url :: rest ∧ requested = failed ++ [url]
        ∧ Forall (λ u, NoRank (fetch u)) failed
        ∧ attempt url = Js.Normal (Some n)
  | None => requested = urls ∧ Forall (λ u, NoRank (fetch u)) urls
  end.
Proof.
  assert (∀ done_,
    Resolver.tryUrls StringToNumber arrayToString fetch urls done_
    = Js.Normal (requested, r) →
    match r with
    | Some n =>
        ∃ failed url rest,
          urls = failed ++ url :: rest ∧ requested = done_ ++ failed ++ [url]
          ∧ Forall (λ u, NoRank (fetch u)) failed
          ∧ attempt url = Js.Normal (Some n)
    | None => requested = done_ ++ urls ∧ Forall (λ u, NoRank (fetch u)) urls
    end) as Hgen.
  { induction urls as [|url rest IH]; intros done_; simpl.
    - intros [= <- <-]. by rewrite app_nil_r.
    - destruct (attempt_rank_or_NoRank url) as [[n Hn]|Hno].
      + rewrite Hn. intros [= <- <-]. exists [], url, rest. by repeat split.
      + intros Hrun.
        assert (Resolver.tryUrls StringToNumber arrayToString fetch rest (done_ ++ [url])
                = Js.Normal (requested, r)) as Hnext.
        { destruct (attempt url) as [[n|]|] eqn:Ha; [|done..].
          by destruct (NoRank_attempt url n Hno). }
        specialize (IH _ Hnext). destruct r as [n|].
        * destruct IH as (failed & u & rest' & -> & -> & Hfailed & Hu).
          exists (url :: failed), u, rest'. rewrite <- !app_assoc.
          repeat split; try done. by constructor.
        * destruct IH as [-> Hall]. rewrite <- app_assoc. split; [done|by constructor]. }
  intros Hrun. specialize (Hgen [] Hrun). by destruct r.
Qed.

End extra_resolver.

Section extra_resolver_witness.
Import Resolver.

Lemma tryUrls_first_rank_witness :
  ∃ failed url rest,
    ["u1"; "u2"] = failed ++ url :: rest ∧ ["u1"] = failed ++ [url]
    ∧ Forall (λ u, NoRank noNumber noString (pages42 u)) failed
    ∧ attempt noNumber noString pages42 url = Js.Normal (Some (Js.Fin 42)).
Proof.
  exact (tryUrls_first_rank noNumber noString pages42
           ["u1"; "u2"] ["u1"] (Some (Js.Fin 42)) eq_refl).
Defined.

Lemma extractRank_raises_witness :
  extractRank noNumber noString Bodies.toStringPage = Js.Throw.
Proof.
  refine (proj2 (proj2 (proj2
            (extractRank_raises noNumber noString Bodies.toStringPage)))
            _ _ eq_refl eq_refl eq_refl _).
  by eexists.
Defined.

End extra_resolver_witness.

(** ** Slugs in URLs *)

Section extra_slug_url.
Import Slug.

Lemma encodeByte_slug c : isAlnum c = true ∨ c = hyphen → Uri.encodeByte c = [c].
Proof.
  intros [Hc| ->]; [|done]. revert Hc.
  destruct c as [[] [] [] [] [] [] [] []]; vm_compute; congruence.
Qed.

Lemma encodeURIComponent_slugChars s : slugChars s → Uri.encodeURIComponent s = s.
Proof.
  unfold slugChars, Uri.encodeURIComponent. intros H.
  rewrite <- (string_of_list_ascii_of_string s) at 2. f_equal.
  induction H as [|c l Hc _ IH]; [done|].
  rewrite bind_cons, IH, encodeByte_slug by done. done.
Qed.

Variable normalizeNFD stripDiacritics toLowerCase : string → string.

(** X10.  A slug is safe in a URL: [encodeURIComponent] leaves the output
    of [slugify] as it is, so the two URLs [fetchEdhrecCommanderRank]
    requests are the pages address followed by the slug and [.json], and by
    the slug and [-1.json]. *)
Theorem urlsToTry_plain (name : string) :
  Uri.encodeURIComponent (slugify normalizeNFD stripDiacritics toLowerCase name)
  = slugify normalizeNFD stripDiacritics toLowerCase name
  ∧ Resolver.urlsToTry Uri.encodeURIComponent
      (slugify normalizeNFD stripDiacritics toLowerCase) name
    = [ String.append Resolver.pagesUrl
          (String.append (slugify normalizeNFD stripDiacritics toLowerCase name) ".json");
        String.append Resolver.pagesUrl
          (String.append (slugify normalizeNFD stripDiacritics toLowerCase name) "-1.json") ].
Proof.
  assert (Uri.encodeURIComponent (slugify normalizeNFD stripDiacritics toLowerCase name)
          = slugify normalizeNFD stripDiacritics toLowerCase name) as Henc.
  { apply encodeURIComponent_slugChars. unfold slugChars, Slug.slugify.
    rewrite list_ascii_of_string_of_list_ascii.
    destruct (trim_collapse_shape
                (removePunct (list_ascii_of_string
                   (toLowerCase (stripDiacritics (normalizeNFD name)))))) as [-> |Hs].
    - constructor.
    - by apply SlugShape_chars. }
  split; [done|]. unfold Resolver.urlsToTry. by rewrite Henc.
Qed.

End extra_slug_url.

(** ** The daily seed and the daily set *)

Section extra_seed.
Import JsDate Daily.
Local Open Scope Z_scope.

Lemma yearOfDay_epoch day : 0 <= day → 1970 <= yearOfDay day.
Proof.
  intros Hday. pose proof (yearOfDay_spec day) as [_ H].
  unfold DayFromYear in H. Z.div_mod_to_equations. lia.
Qed.

(** X11.  For a time value at or after the epoch the seed is the integer
    whose decimal digits are the UTC year, the two-digit month and the
    two-digit date: the three fields are read back from it by division. *)
Theorem getDailySeed_fields (now : Z) :
  0 <= now →
  ∃ seed : Z,
    getDailySeed now = Js.Fin seed
    ∧ seed = getUTCFullYear now * 10000 + (getUTCMonth now + 1) * 100 + getUTCDate now
    ∧ seed / 10000 = getUTCFullYear now
    ∧ (seed / 100) mod 100 = getUTCMonth now + 1
    ∧ seed mod 100 = getUTCDate now.
Proof.
  intros Hnow. eexists. split; [apply getDailySeed_value|].
  unfold getUTCFullYear, getUTCMonth, getUTCDate.
  pose proof (MonthFromTime_range now). pose proof (DateFromTime_range now).
  assert (1970 <= YearFromTime now) as Hy.
  { apply yearOfDay_epoch. unfold Day, msPerDay. Z.div_mod_to_equations. lia. }
  unfold seedValue. destruct (Z.leb_spec 0 (YearFromTime now)); [|lia].
  split; [done|]. repeat split; Z.div_mod_to_equations; lia.
Qed.

Lemma getDailySeed_fields_witness :
  ∃ seed : Z,
    getDailySeed 1793664000000 = Js.Fin seed
    ∧ seed = getUTCFullYear 1793664000000 * 10000
             + (getUTCMonth 1793664000000 + 1) * 100 + getUTCDate 1793664000000
    ∧ seed / 10000 = getUTCFullYear 1793664000000
    ∧ (seed / 100) mod 100 = getUTCMonth 1793664000000 + 1
    ∧ seed mod 100 = getUTCDate 1793664000000.
Proof. apply (getDailySeed_fields 1793664000000). lia. Defined.

End extra_seed.

Section extra_selection.
Import Daily Selection.

Variable pool : list Card.
Variable rankOf : string → Js.maybe_number.
Variable seededIndex : Js.number → nat → nat.

Lemma submseteq_NoDup_names {A : Type} (l k : list A) : l ⊆+ k → NoDup k → NoDup l.
Proof.
  intros Hsub Hnd. apply submseteq_Permutation in Hsub as [k' Hk].
  rewrite Hk in Hnd. by apply NoDup_app in Hnd as [? _].
Qed.

Lemma name_resolved c : name (resolved rankOf c) = name c.
Proof. unfold resolved. by destruct (rankOf (name c)). Qed.

Lemma pickLoop_result n maxAttempts seedBase fuel :
  ∀ arr picked attempts final,
    picked ++ arr ⊆+ pool →
    Forall (qualifies rankOf) picked →
    length picked ≤ n →
    pickLoop rankOf seededIndex n maxAttempts seedBase fuel arr
      (resolved rankOf <$> picked) attempts = Some (Js.Normal final) →
    ∃ chosen, final = resolved rankOf <$> chosen ∧ chosen ⊆+ pool
              ∧ Forall (qualifies rankOf) chosen ∧ length chosen ≤ n.
Proof.
  induction fuel as [|fuel IH]; intros arr picked attempts final Hsub Hgood Hlen;
    cbn [Daily.pickLoop].
  - destruct (_ && _ && _); [done|]. intros [= <-]. exists picked.
    repeat split; [|done..]. etrans; [|exact Hsub]. by apply submseteq_inserts_r.
  - destruct (_ && _ && _) eqn:Hcond.
    2:{ intros [= <-]. exists picked.
        repeat split; [|done..]. etrans; [|exact Hsub]. by apply submseteq_inserts_r. }
    apply andb_true_iff in Hcond as [Hcond _].
    apply andb_true_iff in Hcond as [Hroom _].
    apply Nat.ltb_lt in Hroom. rewrite length_fmap in Hroom.
    destruct (arr !! _) as [card|] eqn:Hcard; [|done].
    pose proof (delete_Permutation _ _ _ Hcard) as Hperm.
    destruct (rankOf (name card)) as [r|] eqn:Hr.
    + destruct (Js.gt r (Js.Fin 0)) eqn:Hpos.
      * replace ((resolved rankOf <$> picked) ++ [withRank card r])
          with (resolved rankOf <$> (picked ++ [card])).
        2:{ rewrite fmap_app. simpl. unfold resolved at 2. by rewrite Hr. }
        apply IH.
        -- rewrite <- app_assoc. simpl. by rewrite <- Hperm.
        -- apply Forall_app. split; [done|]. constructor; [|done]. by exists r.
        -- rewrite length_app. simpl. lia.
      * apply IH; [|done..].
        rewrite Hperm in Hsub. etrans; [|exact Hsub].
        apply submseteq_app; [done|]. by apply submseteq_cons.
    + apply IH; [|done..].
      rewrite Hperm in Hsub. etrans; [|exact Hsub].
      apply submseteq_app; [done|]. by apply submseteq_cons.
Qed.

(** X12.  The list [pickValidRankedCommanders] returns holds at most [n]
    cards; they are cards of the pool, each taken at most as often as the
    pool holds it, each carrying the rank the resolver answered for its
    name, a number above 0.  When the names of the pool are pairwise
    different, so are the names of the list. *)
Theorem pickValidRankedCommanders_result (n maxAttempts : nat) (now : Z)
    (result : list Card) :
  pickValidRankedCommanders pool rankOf seededIndex n maxAttempts now
  = Some (Js.Normal result) →
  ∃ chosen,
    result = resolved rankOf <$> chosen
    ∧ chosen ⊆+ pool
    ∧ Forall (qualifies rankOf) chosen
    ∧ length result ≤ n
    ∧ Forall (λ c, ∃ r, rank c = Some r ∧ Js.gt r (Js.Fin 0) = true) result
    ∧ (NoDup (name <$> pool) → NoDup (name <$> result)).
Proof.
  unfold pickValidRankedCommanders. intros Hrun.
  destruct (pickLoop_result n maxAttempts (getDailySeed now) maxAttempts
              pool [] 0 result) as (chosen & -> & Hsub & Hgood & Hlen);
    [done|constructor|simpl; lia|exact Hrun|].
  exists chosen. split; [done|]. split; [done|]. split; [done|].
  split; [by rewrite length_fmap|]. split.
  - apply Forall_fmap. eapply Forall_impl; [exact Hgood|].
    intros c (r & Hr & Hpos). exists r. unfold resolved. simpl. by rewrite Hr.
  - intros Hnd. rewrite <- list_fmap_compose.
    assert (name ∘ resolved rankOf <$> chosen = name <$> chosen) as ->.
    { apply list_fmap_ext. intros i c _. apply name_resolved. }
    eapply submseteq_NoDup_names; [|exact Hnd]. by apply fmap_submseteq.
Qed.

End extra_selection.

Lemma pickValidRankedCommanders_result_witness :
  ∃ chosen,
    [Daily.withRank (card "Alpha" "a" None) (Js.Fin 5);
     Daily.withRank (card "Gamma" "c" None) (Js.Fin 3)]
    = Selection.resolved dailyRanks <$> chosen
    ∧ chosen ⊆+ dailyPool.
Proof.
  assert (Daily.pickValidRankedCommanders dailyPool dailyRanks seedModulo 7 50
            1793664000000
          = Some (Js.Normal [Daily.withRank (card "Alpha" "a" None) (Js.Fin 5);
                             Daily.withRank (card "Gamma" "c" None) (Js.Fin 3)]))
    as Hrun by (vm_compute; reflexivity).
  destruct (pickValidRankedCommanders_result dailyPool dailyRanks seedModulo 7 50
              1793664000000 _ Hrun) as (chosen & H1 & H2 & _).
  exists chosen. split; [exact H1|exact H2].
Defined.

(** ** Dragging cards *)

Section extra_drag.
Import Drag.

Lemma getIncorrectIndices_shift (h : nat → nat) (correct : list bool) :
  omap id (imap (λ idx (c : bool), if c then None else Some (h idx)) correct)
  = h <$> getIncorrectIndices correct.
Proof.
  unfold getIncorrectIndices. revert h.
  induction correct as [|c correct IH]; intros h; [done|].
  rewrite !imap_cons. cbn [omap list_omap].
  assert (∀ g : nat → nat,
    omap id (imap ((λ idx (c : bool), if c then None else Some (g idx)) ∘ S) correct)
    = g ∘ S <$> omap id (imap (λ idx (c : bool), if c then None else Some idx) correct))
    as Hshift.
  { intros g. rewrite <- (IH (g ∘ S)). f_equal. }
  rewrite (Hshift h), (Hshift (λ i, i)).
  destruct c; simpl; rewrite <- list_fmap_compose; done.
Qed.

Lemma getIncorrectIndices_cons c correct :
  getIncorrectIndices (c :: correct)
  = if c then S <$> getIncorrectIndices correct
    else 0 :: (S <$> getIncorrectIndices correct).
Proof.
  unfold getIncorrectIndices at 1. rewrite imap_cons. cbn [omap list_omap].
  change (omap id (imap ((λ idx (c : bool), if c then None else Some idx) ∘ S) correct))
    with (omap id (imap (λ idx (c : bool), if c then None else Some (S idx)) correct)).
  rewrite getIncorrectIndices_shift. by destruct c.
Qed.

Lemma getIncorrectIndices_lookup correct k i :
  getIncorrectIndices correct !! k = Some i → correct !! i = Some false.
Proof.
  revert k i. induction correct as [|c correct IH]; intros k i.
  - done.
  - rewrite getIncorrectIndices_cons. destruct c.
    + rewrite list_lookup_fmap. destruct (_ !! k) as [j|] eqn:Hj; [|done].
      intros [= <-]. simpl. eauto.
    + destruct k as [|k]; [by intros [= <-]|]. simpl.
      rewrite list_lookup_fmap. destruct (_ !! k) as [j|] eqn:Hj; [|done].
      intros [= <-]. simpl. eauto.
Qed.

Lemma indexOf_Some z indices p :
  indexOf z indices = Some p → ∃ i, indices !! p = Some i ∧ Z.of_nat i = z.
Proof.
  revert p. induction indices as [|i rest IH]; intros p; simpl; [done|].
  destruct (Z.eqb_spec (Z.of_nat i) z) as [Hz|Hz].
  - intros [= <-]. by exists i.
  - destruct (indexOf z rest) as [q|]; [|done]. intros [= <-]. simpl. by apply IH.
Qed.

Lemma assign_cons_S {A : Type} (x : option A) l i v :
  assign (x :: l) (S i) v = x :: assign l i v.
Proof.
  unfold assign. change (S i <? length (x :: l)) with (i <? length l).
  by destruct (i <? length l).
Qed.

Lemma writeBack_cons_S {A : Type} (x : option A) l indices k cards :
  writeBack (x :: l) (S <$> indices) k cards = x :: writeBack l indices k cards.
Proof.
  revert l k. induction indices as [|i rest IH]; intros l k; [done|].
  rewrite fmap_cons. cbn [writeBack]. by rewrite assign_cons_S, IH.
Qed.

Lemma tail_drop {A : Type} (l : list A) k : tail (drop k l) = drop (S k) l.
Proof.
  revert l. induction k as [|k IH]; intros [|x l]; simpl; done.
Qed.

Lemma writeBack_refill {A : Type} correct : ∀ (l : list (option A)) k cards,
  length correct = length l →
  writeBack l (getIncorrectIndices correct) k cards = refill correct l (drop k cards).
Proof.
  induction correct as [|c correct IH]; intros [|x l] k cards Hlen; simplify_eq/=;
    [done|].
  rewrite getIncorrectIndices_cons. destruct c.
  - rewrite writeBack_cons_S. f_equal. by apply IH.
  - cbn [writeBack]. unfold assign at 1. simpl.
    rewrite writeBack_cons_S. f_equal.
    + by rewrite head_lookup, lookup_drop, Nat.add_0_r.
    + rewrite IH by done. by rewrite tail_drop.
Qed.

Lemma fmap_incorrectOf {A : Type} correct : ∀ l : list (option A),
  length correct = length l →
  (λ i, default None (l !! i)) <$> getIncorrectIndices correct = incorrectOf correct l.
Proof.
  induction correct as [|c correct IH]; intros [|x l] Hlen; simplify_eq/=; [done|].
  rewrite getIncorrectIndices_cons. destruct c.
  - rewrite <- list_fmap_compose. by rewrite <- IH.
  - rewrite fmap_cons, <- list_fmap_compose. simpl. f_equal. by rewrite <- IH.
Qed.

Lemma split_Permutation {A : Type} correct : ∀ l : list A,
  length correct = length l → l ≡ₚ correctOf correct l ++ incorrectOf correct l.
Proof.
  induction correct as [|c correct IH]; intros [|x l] Hlen; simplify_eq/=; [done|].
  destruct c; simpl.
  - by rewrite <- IH.
  - rewrite <- Permutation_middle. by rewrite <- IH.
Qed.

Lemma refill_Permutation {A : Type} correct : ∀ l vals : list (option A),
  length correct = length l → length vals = length (incorrectOf correct l) →
  refill correct l vals ≡ₚ correctOf correct l ++ vals.
Proof.
  induction correct as [|c correct IH]; intros [|x l] vals Hlen Hvals; simplify_eq/=.
  - by destruct vals.
  - destruct c; simpl.
    + by rewrite IH.
    + destruct vals as [|v vals]; simplify_eq/=.
      rewrite IH by done. apply Permutation_middle.
Qed.

Lemma refill_fixed {A : Type} correct : ∀ (l vals : list (option A)) i,
  correct !! i = Some true → refill correct l vals !! i = l !! i.
Proof.
  induction correct as [|c correct IH]; intros [|x l] vals [|i] Hi; simplify_eq/=;
    try done.
  - destruct c; simpl; by apply IH.
Qed.

Lemma spliceStart_index len i : i < len → spliceStart len (Z.of_nat i) = i.
Proof.
  intros Hi. unfold spliceStart.
  destruct (Z.ltb_spec (Z.of_nat i) 0); [lia|]. rewrite Nat2Z.id. lia.
Qed.

Lemma spliceOut_index {A : Type} (l : list A) i x :
  l !! i = Some x → spliceOut l (Z.of_nat i) = ([x], delete i l).
Proof.
  intros Hx. unfold spliceOut.
  rewrite spliceStart_index by (by eapply lookup_lt_Some). f_equal.
  rewrite (drop_S _ _ _ Hx). by rewrite firstn_cons, take_0.
Qed.

Lemma spliceIn_Permutation {A : Type} (l : list A) start x :
  spliceIn l start x ≡ₚ x :: l.
Proof.
  unfold spliceIn. rewrite <- Permutation_middle. by rewrite take_drop.
Qed.

(** Moving one entry of a list from a place of the list to another. *)
Lemma move_Permutation {A : Type} (l : list (option A)) i start x :
  l !! i = Some x →
  spliceIn (spliceOut l (Z.of_nat i)).2 start (firstOf (spliceOut l (Z.of_nat i)).1)
  ≡ₚ l.
Proof.
  intros Hx. rewrite (spliceOut_index l i x Hx). simpl.
  rewrite spliceIn_Permutation. symmetry. by apply delete_Permutation.
Qed.

(** One drag-over with the index of a card: the order is permuted, the
    entries at the correct positions stay, the handlers stay in step. *)
Lemma handleDragOver_step idx st :
  inStep st → (0 ≤ idx < Z.of_nat (length (order st)))%Z →
  inStep (handleDragOver idx st)
  ∧ order (handleDragOver idx st) ≡ₚ order st
  ∧ correctPositions (handleDragOver idx st) = correctPositions st
  ∧ ∀ i, correctPositions st !! i = Some true →
         order (handleDragOver idx st) !! i = order st !! i.
Proof.
  intros [Hcp Hdragged] Hidx.
  assert (∀ newOrder,
    newOrder ≡ₚ order st →
    (∀ i, correctPositions st !! i = Some true → newOrder !! i = order st !! i) →
    let st' := {| order := newOrder; correctPositions := correctPositions st;
                  draggedIdx := Some idx |} in
    inStep st' ∧ order st' ≡ₚ order st
    ∧ correctPositions st' = correctPositions st
    ∧ ∀ i, correctPositions st !! i = Some true → order st' !! i = order st !! i)
    as Hmoved.
  { intros newOrder Hperm Hfixed st'. subst st'. unfold inStep. simpl.
    pose proof (Permutation_length Hperm) as Hl.
    split; [|done]. split.
    - destruct Hcp as [?|Hcp]; [by left|right]. by rewrite Hl.
    - intros d [= <-]. rewrite Hl. lia. }
  assert (inStep st ∧ order st ≡ₚ order st
          ∧ correctPositions st = correctPositions st
          ∧ ∀ i, correctPositions st !! i = Some true → order st !! i = order st !! i)
    as Hsame by done.
  unfold handleDragOver.
  destruct (draggedIdx st) as [dragged|] eqn:Hd.
  2:{ by destruct (length (correctPositions st) =? 0). }
  specialize (Hdragged dragged eq_refl).
  destruct (lookup_lt_is_Some_2 (order st) (Z.to_nat dragged) ltac:(lia)) as [x Hx].
  destruct (Nat.eqb_spec (length (correctPositions st)) 0) as [Hnone|Hsome].
  - destruct (dragged =? idx)%Z; [done|].
    destruct (spliceOut (order st) dragged) as [removed newOrder] eqn:Hout.
    apply Hmoved.
    + pose proof (move_Permutation (order st) (Z.to_nat dragged) idx x Hx) as Hm.
      rewrite Z2Nat.id, Hout in Hm by lia. exact Hm.
    + intros i Hi. destruct (correctPositions st); [done|]. done.
  - destruct Hcp as [Hcp|Hlen]; [by rewrite Hcp in Hsome|].
    destruct (_ || _); [done|].
    destruct (indexOf dragged _) as [p|] eqn:Hp; [|done].
    destruct (indexOf idx _) as [q|] eqn:Hq; [|done].
    destruct (indexOf_Some _ _ _ Hp) as (i & Hi & _).
    rewrite (fmap_incorrectOf _ _ Hlen).
    assert (∃ y, incorrectOf (correctPositions st) (order st) !! p = Some y) as [y Hy].
    { apply lookup_lt_is_Some_2. rewrite <- (fmap_incorrectOf _ _ Hlen), length_fmap.
      by eapply lookup_lt_Some. }
    pose proof (move_Permutation _ p (Z.of_nat q) y Hy) as Hm.
    destruct (spliceOut (incorrectOf _ _) (Z.of_nat p)) as [removed rest] eqn:Hout.
    simpl in Hm.
    rewrite (writeBack_refill _ _ _ _ Hlen), drop_0. apply Hmoved.
    + rewrite refill_Permutation; [|done|by rewrite Hm].
      rewrite Hm. symmetry. by apply split_Permutation.
    + intros j Hj. by apply refill_fixed.
Qed.

Lemma handle_step ev st :
  inStep st → onCard (length (order st)) ev →
  inStep (handle st ev)
  ∧ order (handle st ev) ≡ₚ order st
  ∧ correctPositions (handle st ev) = correctPositions st
  ∧ ∀ i, correctPositions st !! i = Some true →
         order (handle st ev) !! i = order st !! i.
Proof.
  intros Hstep Hev. destruct ev as [idx|idx|]; simpl.
  - unfold handleDragStart. destruct (_ || _); [|done].
    destruct Hstep as [Hcp _]. split; [|done]. split; [done|].
    intros d [= <-]. simpl. simpl in Hev. lia.
  - by apply handleDragOver_step.
  - destruct Hstep as [Hcp _]. split; [|done]. split; [done|]. by intros d [=].
Qed.

Lemma run_keeps (events : list Event) (st : State) :
  inStep st →
  Forall (onCard (length (order st))) events →
  inStep (run events st)
  ∧ order (run events st) ≡ₚ order st
  ∧ correctPositions (run events st) = correctPositions st
  ∧ ∀ i, correctPositions st !! i = Some true →
         order (run events st) !! i = order st !! i.
Proof.
  revert st. induction events as [|ev events IH]; intros st Hstep Hevs; [done|].
  apply Forall_cons in Hevs as [Hev Hevs].
  destruct (handle_step ev st Hstep Hev) as (Hstep1 & Hperm1 & Hcp1 & Hfix1).
  change (run (ev :: events) st) with (run events (handle st ev)).
  destruct (IH (handle st ev) Hstep1) as (Hstep2 & Hperm2 & Hcp2 & Hfix2).
  { by rewrite (Permutation_length Hperm1). }
  split; [done|]. split; [by rewrite Hperm2|]. split; [by rewrite Hcp2|].
  intros i Hi. rewrite Hfix2 by (by rewrite Hcp1). by apply Hfix1.
Qed.

(** X13.  The drag handlers keep a state that is in step with the round:
    [correctPositions] empty or as long as the order, and [draggedIdx]
    null or the index of a card (so it is at the start of a round, after a
    guess and after a drag has ended).  From such a state, whatever
    sequence of drag events on the cards of the round is handled, the state
    is in step again, the order stays a rearrangement of the same cards
    (none is lost, duplicated or replaced by [undefined]), it keeps its
    length, and, after a guess, the cards at correct positions stay where
    they are. *)
Theorem drag_keeps_cards (events : list Event) (st : State) :
  inStep st →
  Forall (onCard (length (order st))) events →
  inStep (run events st)
  ∧ order (run events st) ≡ₚ order st
  ∧ length (order (run events st)) = length (order st)
  ∧ (Forall is_Some (order st) → Forall is_Some (order (run events st)))
  ∧ correctPositions (run events st) = correctPositions st
  ∧ ∀ i, correctPositions st !! i = Some true →
         order (run events st) !! i = order st !! i.
Proof.
  intros Hstep Hevs.
  destruct (run_keeps events st Hstep Hevs) as (Hstep' & Hperm & Hcp & Hfix).
  split; [done|].
  split; [done|]. split; [by rewrite Hperm|]. split; [by rewrite Hperm|]. done.
Qed.

Lemma ofRound_handleGuess_inStep (st : Daily.State) :
  inStep (ofRound (Daily.handleGuess st)).
Proof.
  split; [|done]. right. simpl. unfold Daily.positionsCorrect, Daily.getRanks.
  by rewrite length_imap, !length_fmap.
Qed.

Lemma drag_keeps_cards_witness :
  order (run swapLastTwo (ofRound guessedRound))
  = [Some (rankedCard "b" 3); Some (rankedCard "c" 7); Some (rankedCard "a" 10)]
  ∧ order (run swapLastTwo (ofRound guessedRound)) !! 0%nat
    = order (ofRound guessedRound) !! 0%nat.
Proof.
  split; [by vm_compute|].
  refine (proj2 (proj2 (proj2 (proj2 (proj2
            (drag_keeps_cards swapLastTwo (ofRound guessedRound)
               (ofRound_handleGuess_inStep _) _))))) 0%nat eq_refl).
  repeat constructor; simpl; lia.
Defined.

Lemma omap_id_Some {A : Type} (l : list A) : omap id (Some <$> l) = l.
Proof. induction l as [|x l IH]; [done|]. csimpl. by f_equal. Qed.

Lemma Some_omap_id {A : Type} (l : list (option A)) :
  Forall is_Some l → Some <$> omap id l = l.
Proof.
  induction 1 as [|x l [y ->] _ IH]; [done|]. csimpl. by f_equal.
Qed.

Lemma Fin_omap_integer (l : list Js.number) :
  Forall (λ n, ∃ z, n = Js.Fin z) l → Js.Fin <$> omap Ranks.integer l = l.
Proof.
  induction 1 as [|n l [z ->] _ IH]; [done|]. csimpl. by f_equal.
Qed.

Lemma omap_integer_Fin (zs : list Z) : omap Ranks.integer (Js.Fin <$> zs) = zs.
Proof. induction zs as [|z zs IH]; [done|]. csimpl. by f_equal. Qed.

(** X14.  A position that a guess marked correct stays correct: after any
    sequence of drag events on the cards of the round, the next guess marks
    it correct again. *)
Theorem correct_stays_correct (st : Daily.State) (zs : list Z)
    (events : list Event) (i : nat) :
  Daily.getRanks (Daily.order st) = Js.Fin <$> zs →
  Forall (onCard (length (Daily.order st))) events →
  Daily.correctPositions (Daily.handleGuess st) !! i = Some true →
  Daily.correctPositions
    (Daily.handleGuess
       (Daily.setOrder
          (cards (order (run events (ofRound (Daily.handleGuess st)))))
          (Daily.handleGuess st))) !! i
  = Some true.
Proof.
  intros Hranks Hevs Hcorrect.
  destruct (run_keeps events (ofRound (Daily.handleGuess st))
              (ofRound_handleGuess_inStep st)) as (_ & Hperm & _ & Hfix).
  { simpl. by rewrite length_fmap. }
  simpl in Hperm, Hfix. specialize (Hfix i Hcorrect).
  set (moved := order (run events (ofRound (Daily.handleGuess st)))) in *.
  assert (Some <$> cards moved = moved) as Hdefined.
  { apply Some_omap_id. rewrite Hperm. apply Forall_fmap, Forall_true. by eexists. }
  assert (cards moved ≡ₚ Daily.order st) as Hcards.
  { unfold cards. by rewrite Hperm, omap_id_Some. }
  assert (cards moved !! i = Daily.order st !! i) as Hsame.
  { rewrite <- Hdefined, !list_lookup_fmap in Hfix.
    destruct (cards moved !! i), (Daily.order st !! i); by simplify_eq/=. }
  pose (zs' := omap Ranks.integer (Daily.getRanks (cards moved))).
  assert (Daily.getRanks (cards moved) ≡ₚ Js.Fin <$> zs) as Hrperm.
  { rewrite <- Hranks. unfold Daily.getRanks. by rewrite Hcards. }
  assert (Daily.getRanks (cards moved) = Js.Fin <$> zs') as Hranks'.
  { symmetry. apply Fin_omap_integer. rewrite Hrperm.
    apply Forall_fmap, Forall_true. by eexists. }
  assert (zs' ≡ₚ zs) as Hzs.
  { unfold zs'. by rewrite Hrperm, omap_integer_Fin. }
  assert (sortZ zs' = sortZ zs) as Hsorted.
  { apply sortZ_unique; [apply sortZ_Sorted|]. by rewrite sortZ_Permutation, Hzs. }
  assert (zs' !! i = zs !! i) as Hrank.
  { assert (Daily.getRanks (cards moved) !! i = Daily.getRanks (Daily.order st) !! i)
      as Hr by (unfold Daily.getRanks; by rewrite !list_lookup_fmap, Hsame).
    rewrite Hranks', Hranks, !list_lookup_fmap in Hr.
    destruct (zs' !! i), (zs !! i); by simplify_eq/=. }
  assert (∀ l, length l = length (sortZ l) ) as Hlen
    by (intros l; by rewrite sortZ_Permutation).
  revert Hcorrect. unfold Daily.handleGuess. simpl.
  rewrite Hranks', Hranks, !sortRanks_Fin.
  rewrite !positionsCorrect_Fin by done.
  rewrite !lookup_zip_with, Hsorted, Hrank. done.
Qed.

Lemma correct_stays_correct_witness :
  Daily.correctPositions
    (Daily.handleGuess
       (Daily.setOrder
          (cards (order (run swapLastTwo (ofRound guessedRound))))
          guessedRound)) !! 0%nat
  = Some true.
Proof.
  refine (correct_stays_correct
            (roundOf [rankedCard "b" 3; rankedCard "a" 10; rankedCard "c" 7])
            [3; 10; 7]%Z swapLastTwo 0 eq_refl _ eq_refl).
  repeat constructor; simpl; lia.
Defined.

End extra_drag.

(** ** The symbols of a mana cost *)

Section extra_mana.
Import Mana ManaCost.

Lemma classRun_spec s :
  s = (classRun s).1 ++ (classRun s).2
  ∧ (closeBrace ∉ (classRun s).1)
  ∧ ((classRun s).2 = [] ∨ ∃ after, (classRun s).2 = closeBrace :: after).
Proof.
  induction s as [|c s (IH1 & IH2 & IH3)]; simpl.
  - split; [done|]. split; [by intros ?%elem_of_nil|by left].
  - destruct (Ascii.eqb_spec c closeBrace) as [->|Hc]; simpl.
    + split; [done|]. split; [by intros ?%elem_of_nil|right; by eexists].
    + destruct (classRun s) as [run after]; simpl in *.
      split; [by rewrite <- IH1|]. split; [|done].
      intros [?|?]%elem_of_cons; done.
Qed.

Lemma classRun_app run after :
  closeBrace ∉ run → classRun (run ++ closeBrace :: after) = (run, closeBrace :: after).
Proof.
  induction run as [|c run IH]; intros Hrun; simpl.
  - done.
  - apply not_elem_of_cons in Hrun as [Hc Hrun].
    destruct (Ascii.eqb_spec c closeBrace) as [->|_]; [done|]. by rewrite IH.
Qed.

Lemma matchHere_Some s group after :
  matchHere s = Some (group, after) →
  s = openBrace :: group ++ closeBrace :: after ∧ groupLike group.
Proof.
  destruct s as [|c rest]; [done|]. simpl.
  destruct (Ascii.eqb_spec c openBrace) as [->|_]; [|done].
  destruct (classRun_spec rest) as (Heq & Hrun & _).
  destruct (classRun rest) as [[|g run] [|close after']]; simpl in *; try done.
  destruct (Ascii.eqb_spec close closeBrace) as [->|_]; [|done].
  intros [= <- <-]. split; [by rewrite Heq|]. by split.
Qed.

Lemma matchHere_braced sym rest :
  groupLike sym → matchHere (braced sym ++ rest) = Some (sym, rest).
Proof.
  intros [Hne Hfree]. unfold braced. simpl.
  rewrite <- app_assoc. simpl. rewrite classRun_app by done.
  destruct sym; [done|]. done.
Qed.

Lemma exec_Some s group after :
  exec s = Some (group, after) →
  groupLike group ∧ length after + length group + 2 ≤ length s.
Proof.
  induction s as [|c s IH].
  - done.
  - cbn [exec]. destruct (matchHere (c :: s)) as [[g a]|] eqn:Hm.
    + intros [= -> ->]. apply matchHere_Some in Hm as [-> Hgroup].
      split; [done|]. simpl. rewrite length_app. simpl. lia.
    + intros [Hgroup Hlen]%IH. split; [done|]. simpl. lia.
Qed.

Lemma removeSlashes_clean group :
  closeBrace ∉ group →
  (slash ∉ removeSlashes group) ∧ (closeBrace ∉ removeSlashes group).
Proof.
  intros Hfree. unfold removeSlashes. split.
  - intros [_ Hc]%list_elem_of_In%filter_In. by rewrite Ascii.eqb_refl in Hc.
  - intros [Hc _]%list_elem_of_In%filter_In. by apply Hfree, list_elem_of_In.
Qed.

Lemma symbolsLoop_ends fuel : ∀ s symbols,
  length s < fuel →
  ∃ more,
    symbolsLoop fuel s symbols = Some (symbols ++ more)
    ∧ Forall (λ sym, (slash ∉ list_ascii_of_string sym)
                     ∧ (closeBrace ∉ list_ascii_of_string sym)) more
    ∧ 3 * length more ≤ length s.
Proof.
  induction fuel as [|fuel IH]; intros s symbols Hfuel; [lia|].
  cbn [symbolsLoop]. destruct (exec s) as [[group after]|] eqn:Hexec.
  - apply exec_Some in Hexec as [[Hne Hfree] Hlen].
    assert (1 ≤ length group) by (destruct group; [done|simpl; lia]).
    destruct (IH after (symbols ++ [string_of_list_ascii (removeSlashes group)]))
      as (more & -> & Hclean & Hmore); [lia|].
    exists (string_of_list_ascii (removeSlashes group) :: more).
    split; [by rewrite <- app_assoc|]. split; [|simpl; lia].
    constructor; [|done]. rewrite list_ascii_of_string_of_list_ascii.
    by apply removeSlashes_clean.
  - exists []. rewrite app_nil_r. split; [done|]. split; [done|simpl; lia].
Qed.

(** X15.  The loop over the symbols of a mana cost ends on every cost; no
    symbol it yields holds a slash or a closing brace, and a cost of [n]
    characters yields at most [n / 3] symbols. *)
Theorem manaSymbols_returns (manaCost : string) :
  ∃ symbols,
    manaSymbols manaCost = Some symbols
    ∧ Forall (λ sym, (slash ∉ list_ascii_of_string sym)
                     ∧ (closeBrace ∉ list_ascii_of_string sym)) symbols
    ∧ 3 * length symbols ≤ String.length manaCost.
Proof.
  unfold manaSymbols.
  destruct (symbolsLoop_ends (S (length (list_ascii_of_string manaCost)))
              (list_ascii_of_string manaCost) []) as (more & Heq & Hclean & Hlen);
    [lia|].
  exists more. split; [done|]. split; [done|].
  assert (length (list_ascii_of_string manaCost) = String.length manaCost) as <-; [|done].
  clear. induction manaCost as [|c s IH]; simpl; [done|]. by rewrite IH.
Qed.

Lemma length_cost syms : length syms ≤ length (cost syms).
Proof.
  induction syms as [|sym syms IH]; [done|].
  unfold cost in *. cbn [mbind list_bind]. rewrite length_app. unfold braced at 1.
  simpl. lia.
Qed.

Lemma symbolsLoop_cost syms : ∀ fuel symbols,
  Forall groupLike syms → length syms < fuel →
  symbolsLoop fuel (cost syms) symbols = Some (symbols ++ (symbolOf <$> syms)).
Proof.
  induction syms as [|sym syms IH]; intros fuel symbols Hsyms Hfuel.
  - destruct fuel; [simpl in Hfuel; lia|]. simpl. by rewrite app_nil_r.
  - apply Forall_cons in Hsyms as [Hsym Hsyms].
    destruct fuel; [simpl in Hfuel; lia|].
    cbn [symbolsLoop]. unfold cost. cbn [mbind list_bind]. fold (cost syms).
    assert (exec (braced sym ++ cost syms) = Some (sym, cost syms)) as ->.
    { unfold braced at 1. cbn [exec app].
      change (openBrace :: (sym ++ [closeBrace]) ++ cost syms)
        with (braced sym ++ cost syms).
      by rewrite matchHere_braced. }
    rewrite IH by (done || simpl in Hfuel; lia).
    by rewrite <- app_assoc.
Qed.

(** X16.  A mana cost that writes symbols between braces, one after the
    other, is read back symbol by symbol, each without its slashes; a symbol
    may hold any character but the closing brace and is not empty. *)
Theorem manaSymbols_braced (syms : list (list ascii)) :
  Forall groupLike syms →
  manaSymbols (string_of_list_ascii (cost syms)) = Some (symbolOf <$> syms).
Proof.
  intros Hsyms. unfold manaSymbols. rewrite list_ascii_of_string_of_list_ascii.
  rewrite (symbolsLoop_cost syms _ []); [done|done|].
  pose proof (length_cost syms). lia.
Qed.

Lemma manaSymbols_braced_witness :
  manaSymbols "{2}{W/U}{B}" = Some ["2"; "WU"; "B"].
Proof.
  refine (manaSymbols_braced
            [["2"]; ["W"; "/"; "U"]; ["B"]]%char _).
  repeat (apply Forall_cons; split; [split; [discriminate|]|]);
    [apply (bool_decide_unpack _); vm_compute; exact I..|constructor].
Defined.

End extra_mana.

(** ** Dragging past the last card, and the look of the guess button *)

Section extra_drag_edge.
Import Drag.

Lemma spliceStart_past len start :
  (Z.of_nat len ≤ start)%Z → spliceStart len start = len.
Proof.
  intros Hstart. unfold spliceStart.
  destruct (Z.ltb_spec start 0); lia.
Qed.

Lemma delete_past {A : Type} (l : list A) i : length l ≤ i → delete i l = l.
Proof.
  revert i. induction l as [|x l IH]; intros [|i] Hi; simpl in *; try done; [lia|].
  f_equal. apply IH. lia.
Qed.

Lemma spliceOut_past {A : Type} (l : list A) start :
  (Z.of_nat (length l) ≤ start)%Z → spliceOut l start = ([], l).
Proof.
  intros Hstart. unfold spliceOut. rewrite spliceStart_past by done.
  rewrite drop_all. f_equal. by apply delete_past.
Qed.

Lemma handleDragOver_before_guess (st : State) (dragged idx : Z) :
  correctPositions st = [] → draggedIdx st = Some dragged → dragged ≠ idx →
  handleDragOver idx st
  = {| order := spliceIn (spliceOut (order st) dragged).2 idx
                  (firstOf (spliceOut (order st) dragged).1);
       correctPositions := correctPositions st;
       draggedIdx := Some idx |}.
Proof.
  intros Hcp Hd Hne. unfold handleDragOver. rewrite Hcp, Hd. simpl.
  destruct (Z.eqb_spec dragged idx); done.
Qed.

(** X17.  Before the first guess, a drag over an index past the last card
    (the touch handler passes [Math.floor(x / cardWidth)] on unchecked) still
    only rearranges the cards, but leaves that index as the dragged one; the
    next drag over another index then removes nothing and inserts
    [undefined]: the order gains an entry that is no card. *)
Theorem dragOver_past_end (st : State) (dragged idx idx' : Z) :
  correctPositions st = [] →
  draggedIdx st = Some dragged →
  (0 ≤ dragged < Z.of_nat (length (order st)))%Z →
  (Z.of_nat (length (order st)) ≤ idx)%Z →
  idx' ≠ idx →
  order (handleDragOver idx st) ≡ₚ order st
  ∧ draggedIdx (handleDragOver idx st) = Some idx
  ∧ order (handleDragOver idx' (handleDragOver idx st)) ≡ₚ None :: order st.
Proof.
  intros Hcp Hd Hrange Hidx Hne.
  destruct (lookup_lt_is_Some_2 (order st) (Z.to_nat dragged)) as [x Hx]; [lia|].
  pose proof (handleDragOver_before_guess st dragged idx Hcp Hd ltac:(lia)) as Hst1.
  assert (order (handleDragOver idx st) ≡ₚ order st) as Hperm.
  { rewrite Hst1. simpl. rewrite <- (Z2Nat.id dragged) by lia.
    by apply move_Permutation with x. }
  split; [done|]. split; [by rewrite Hst1|].
  rewrite (handleDragOver_before_guess (handleDragOver idx st) idx idx');
    [|by rewrite Hst1, Hcp|by rewrite Hst1|done].
  rewrite spliceOut_past by (rewrite (Permutation_length Hperm); lia).
  simpl. by rewrite spliceIn_Permutation, Hperm.
Qed.

Lemma dragOver_past_end_witness :
  order (handleDragOver 0 (handleDragOver 5
           {| order := [Some (rankedCard "a" 10); Some (rankedCard "b" 3)];
              correctPositions := []; draggedIdx := Some 0%Z |}))
  ≡ₚ [None; Some (rankedCard "a" 10); Some (rankedCard "b" 3)].
Proof.
  refine (proj2 (proj2 (dragOver_past_end
            {| order := [Some (rankedCard "a" 10); Some (rankedCard "b" 3)];
               correctPositions := []; draggedIdx := Some 0%Z |}
            0 5 0 eq_refl eq_refl _ _ _))); simpl; lia.
Defined.

End extra_drag_edge.

Section extra_button.
Import Daily DailyView.

(** X18.  The guess button is drawn in the grey, not-allowed colours
    exactly when it is disabled. *)
Theorem guessClass_disabled (st : State) :
  guessClass st = disabledClass ↔ guessDisabled st = true.
Proof.
  unfold guessClass, guessDisabled.
  destruct (isSolved st); [done|].
  destruct (length (guessHistory st) =? 0); [done|].
  destruct (guessHistory st !! _) as [last|]; [|done].
  by destruct (String.eqb _ _).
Qed.

Lemma guessDisabled_after_guess_witness :
  guessDisabled
    (setOrder [rankedCard "b" 3; rankedCard "a" 10; rankedCard "c" 7]
       (handleGuess (roundOf [rankedCard "a" 10; rankedCard "b" 3; rankedCard "c" 7])))
  = false.
Proof.
  pose (cards := [rankedCard "a" 10; rankedCard "b" 3; rankedCard "c" 7]).
  pose (moved := [rankedCard "b" 3; rankedCard "a" 10; rankedCard "c" 7]).
  assert (Forall (λ c, commaFree (card_id c)) cards) as Hfree.
  { repeat constructor; simpl; discriminate. }
  assert (Forall (λ c, commaFree (card_id c)) moved) as Hfree'.
  { repeat constructor; simpl; discriminate. }
  destruct (guessDisabled (setOrder moved (handleGuess (roundOf cards)))) eqn:Hd;
    [|reflexivity].
  apply (guessDisabled_after_guess (roundOf cards) moved eq_refl eq_refl Hfree Hfree')
    in Hd.
  discriminate Hd.
Defined.

End extra_button.
